(** * lyricface: the typographic mosaic renderer

    A shallow embedding of the rendering core of the page component
    ([textCharacters] and [renderToCanvas] of [Home]) and the proofs of
    its specified properties.

    Number model.  Every JavaScript [number] that the renderer handles is
    a finite IEEE double, hence a rational: such values are modelled in
    [Q], with [Math.floor], [Math.min], [Math.max] and the comparisons
    exact.  Sums, products and quotients are the exact rational ones
    (the rounding of double arithmetic is not modelled).  The one
    irrational step, [Math.pow(_, 0.65)], and what is computed from it
    live in [R].  Pixel counts, byte values and array indices that the
    code keeps integral are in [Z]; the glyph counter is a [nat]. *)

From Stdlib Require Import ZArith NArith QArith Qround Qminmax Qabs.
From Stdlib Require Import Reals Qreals Psatz Lia List Bool.
From Stdlib Require Import Strings.Byte.
From Stdlib Require Strings.String.
Import ListNotations.

Local Open Scope Z_scope.

(** ** GlyphSequencer: [textCharacters] and the cyclic read *)

Module Glyph.

(** A string is its sequence of UTF-16 code units. *)
Definition codeunit := N.
Definition jsstring := list codeunit.

Definition SPACE : codeunit := 32%N.
Definition LF : codeunit := 10%N.
Definition BULLET : codeunit := 8226%N.   (* U+2022 *)

(** The class [\s] of a regular expression, which is also what [trim]
    strips: WhiteSpace and LineTerminator of ECMAScript. *)
Definition isWhiteSpace (c : codeunit) : bool :=
  ((9 <=? c) && (c <=? 13) || (c =? 32) || (c =? 160) || (c =? 5760)
   || (8192 <=? c) && (c <=? 8202) || (c =? 8232) || (c =? 8233)
   || (c =? 8239) || (c =? 8287) || (c =? 12288) || (c =? 65279))%N.

(** [s.replace(/\s+/g, " ")]: [inRun] tells that the previous code unit
    belonged to the whitespace run that is being replaced. *)
Fixpoint replaceRuns (inRun : bool) (s : jsstring) : jsstring :=
  match s with
  | [] => []
  | c :: rest =>
      if isWhiteSpace c
      then (if inRun then replaceRuns true rest
            else SPACE :: replaceRuns true rest)
      else c :: replaceRuns false rest
  end.

Fixpoint trimStart (s : jsstring) : jsstring :=
  match s with
  | [] => []
  | c :: rest => if isWhiteSpace c then trimStart rest else s
  end.

Definition trimEnd (s : jsstring) : jsstring := rev (trimStart (rev s)).

Definition trim (s : jsstring) : jsstring := trimEnd (trimStart s).

Definition sanitize (lyrics : jsstring) : jsstring :=
  trim (replaceRuns false lyrics).

(** [sanitized.length > 0 ? sanitized.split("") : ["•"]] *)
Definition textCharacters (lyrics : jsstring) : list codeunit :=
  let sanitized := sanitize lyrics in
  if (0 <? length sanitized)%nat then sanitized else [BULLET].

(** [textCharacters[charIndex % textCharacters.length]], then the
    replacement of a newline by a space.  [None] is [undefined]. *)
Definition safeChar (nextChar : codeunit) : codeunit :=
  if (nextChar =? LF)%N then SPACE else nextChar.

Definition glyphAt (chars : list codeunit) (charIndex : nat)
  : option codeunit :=
  option_map safeChar (nth_error chars (charIndex mod length chars)%nat).

End Glyph.

(** ** JavaScript numbers and the [Math] functions the renderer calls *)

Module JS.

Definition number := Q.

Definition Math_floor (x : number) : number := inject_Z (Qfloor x).

Definition Math_min (a b : number) : number := Qmin a b.
Definition Math_max (a b : number) : number := Qmax a b.

(** [Math.round]: the nearest integer, a tie going towards +infinity. *)
Definition Math_round (x : number) : Z := Qfloor (x + (1 # 2)).
Definition Math_roundR (x : R) : Z := Zfloor (x + / 2).

(** [Math.pow(base, exponent)] for the renderer's use of it, a positive
    [exponent]: a positive base is raised to the power, base 0 gives 0.
    A negative base would give NaN; [IntensityFacts.base_nonneg] shows
    that the renderer never passes one, and the model returns 0
    there. *)
Definition Math_pow (base exponent : R) : R :=
  if Rlt_dec 0 base then Rpower base exponent else 0%R.

(** [const clamp = (value, min, max) => Math.min(Math.max(value, min), max)] *)
Definition clamp (value min max : number) : number :=
  Math_min (Math_max value min) max.

(** [!x] for a number [x]. *)
Definition falsy (x : Z) : bool := (x =? 0).

(** Reading [data[index]] from a [Uint8ClampedArray]: a value when
    [index] is an integer within the array, [undefined] otherwise. *)
Definition isIndex (index : number) : bool :=
  Qeq_bool index (inject_Z (Qfloor index)) && (0 <=? Qfloor index).

Definition byteValue (b : byte) : number :=
  inject_Z (Z.of_N (Byte.to_N b)).

Definition typedArrayGet (data : list byte) (index : number)
  : option number :=
  if isIndex index
  then option_map byteValue (nth_error data (Z.to_nat (Qfloor index)))
  else None.

(** [v ?? 0] *)
Definition orZero (v : option number) : number :=
  match v with Some n => n | None => 0%Q end.

(** [for (let i = start; i < limit; i += step) body]: the loop runs
    [body] on a state; [None] when [fuel] iterations did not reach the
    limit. *)
Fixpoint forLoop {St : Type} (fuel : nat) (i limit step : number)
    (body : number -> St -> option St) (st : St) : option St :=
  if Qlt_le_dec i limit
  then match fuel with
       | O => None
       | S fuel' =>
           match body i st with
           | Some st' => forLoop fuel' (i + step)%Q limit step body st'
           | None => None
           end
       end
  else Some st.

(** One turn of a loop on a state that an earlier turn may have lost. *)
Definition turn {St : Type} (body : number -> St -> option St)
    (acc : option St) (i : number) : option St :=
  match acc with Some st => body i st | None => None end.

End JS.

(** ** PixelSampler: lines 109-125 of [renderToCanvas] *)

Module Sampler.
Import JS.
Local Open Scope Q_scope.

Record Sample := { red : number; green : number; blue : number }.

Definition sampleX (baseWidth x : number) : number :=
  Math_min (baseWidth - 1) (Math_max 0 (Math_floor x)).

Definition sampleY (baseHeight y : number) : number :=
  Math_min (baseHeight - 1) (Math_max 0 (Math_floor y)).

Definition pixelIndex (baseWidth baseHeight x y : number) : number :=
  (sampleY baseHeight y * baseWidth + sampleX baseWidth x) * 4.

Definition altIndex (baseWidth baseHeight x y : number) : number :=
  (Math_min (baseHeight - 1) (sampleY baseHeight y + 1) * baseWidth
   + Math_min (baseWidth - 1) (sampleX baseWidth x + 1)) * 4.

Definition channel (imageData : list byte) (p a : number) (k : number)
  : number :=
  (orZero (typedArrayGet imageData (p + k))
   + orZero (typedArrayGet imageData (a + k))) / 2.

Definition sampleAt (imageData : list byte)
    (baseWidth baseHeight x y : number) : Sample :=
  let p := pixelIndex baseWidth baseHeight x y in
  let a := altIndex baseWidth baseHeight x y in
  {| red := (orZero (typedArrayGet imageData p)
             + orZero (typedArrayGet imageData a)) / 2;
     green := channel imageData p a 1;
     blue := channel imageData p a 2 |}.

(** The same column and row, and those of the second tap, computed in
    [Z] for a surface whose dimensions are the integers [w] and [h]. *)
Definition col (w : Z) (x : number) : Z :=
  Z.min (w - 1) (Z.max 0 (Qfloor x)).
Definition row (h : Z) (y : number) : Z :=
  Z.min (h - 1) (Z.max 0 (Qfloor y)).
Definition altCol (w : Z) (x : number) : Z := Z.min (w - 1) (col w x + 1).
Definition altRow (h : Z) (y : number) : Z := Z.min (h - 1) (row h y + 1).

(** The read [data[index]] hits the array: [index] is an integer within
    the bounds, and the value read is the byte stored there, not the
    fallback of [?? 0]. *)
Definition inBounds (data : list byte) (index : number) : Prop :=
  exists (n : Z) (b : byte),
    index == inject_Z n
    /\ (0 <= n < Z.of_nat (length data))%Z
    /\ nth_error data (Z.to_nat n) = Some b
    /\ typedArrayGet data index = Some (byteValue b).

(** A buffer whose pixels all have the colour (128, 128, 128). *)
Definition uniformGray (data : list byte) : Prop :=
  forall (n : Z) (b : byte),
    (0 <= n)%Z -> nth_error data (Z.to_nat n) = Some b ->
    (n mod 4 <> 3)%Z -> b = x80.

(** [n] opaque gray pixels. *)
Fixpoint grayBuffer (n : nat) : list byte :=
  match n with
  | O => []
  | S n' => x80 :: x80 :: x80 :: xff :: grayBuffer n'
  end.

End Sampler.

(** ** IntensityMapper: lines 127-141 of [renderToCanvas] *)

Module Intensity.
Import JS Sampler.

Definition luminance (s : Sample) : number :=
  (0.2126 * red s + 0.7152 * green s + 0.0722 * blue s)%Q.

Definition contrasted (contrast : number) (lum : number) : number :=
  clamp ((lum - 128) * contrast + 128)%Q 0%Q 255%Q.

Definition intensity (c : number) : R :=
  Math_pow (Q2R (1 - c / 255)%Q) 0.65%R.

Definition weight (i : R) : Z := Math_roundR (300 + i * 600)%R.

Definition size (scaledFont : number) (i : R) : R :=
  (Q2R scaledFont * (0.85 + i * 0.8))%R.

Definition alpha (i : R) : R := (0.45 + i * 0.55)%R.

(** The colour of [fillStyle]: [rgba(r, g, b, alpha)]. *)
Record Rgba := { cr : Z; cg : Z; cb : Z; ca : R }.

Definition fillStyle (monochrome : bool) (s : Sample) (a : R) : Rgba :=
  if monochrome
  then {| cr := 26; cg := 26; cb := 26; ca := a |}
  else {| cr := Math_round (red s); cg := Math_round (green s);
          cb := Math_round (blue s); ca := a |}.

End Intensity.

(** ** MosaicRenderer: [renderToCanvas] *)

Module Renderer.
Import JS Sampler Intensity Glyph.
Import Stdlib.Strings.String.
Local Open Scope Q_scope.

Record CanvasSettings := {
  fontSize : number;
  spacing : number;
  contrast : number;
  monochrome : bool;
  underlay : number
}.

(** The image element.  [pixelsAt w h] is the RGBA8 data that the
    browser yields when the image is drawn scaled to [w] by [h] on a
    fresh canvas and the canvas is read back (lines 82-89). *)
Record HTMLImageElement := {
  pixelsAt : number -> number -> list byte
}.

(** What one pass of the loop body derives and draws. *)
Record MosaicCell := {
  cell_x : number;
  cell_y : number;
  cell_sample : Sample;
  cell_contrasted : number;
  cell_intensity : R;
  cell_weight : Z;
  cell_size : R;
  cell_fill : Rgba;
  cell_char : option codeunit
}.

(** The calls made on the 2D context.  [DrawGlyph] stands for the three
    statements of lines 138-145: [font], [fillStyle] and [fillText]. *)
Inductive DrawOp :=
| ClearRect (x y w h : number)
| SetFillStyle (colour : string)
| FillRect (x y w h : number)
| Save
| SetGlobalAlpha (a : number)
| DrawImage (image : HTMLImageElement) (x y w h : number)
| Restore
| SetTextBaseline (baseline : string)
| DrawGlyph (cell : MosaicCell).

(** The canvas: [width] and [height] hold the values the code assigns
    (the browser's conversion of a fractional size to an integer is
    outside the source). *)
Record HTMLCanvasElement := {
  width : number;
  height : number;
  context2d : bool;              (* [getContext("2d")] is not null *)
  painted : list DrawOp          (* the calls made so far, oldest first *)
}.

(** What the callback closes over.  The image size is that of the
    decoded image ([naturalWidth], [naturalHeight]) or 0 by 0 before a
    load; [previewWidth] is 720 or the width of the container clamped
    to [[280, 820]]: all three are whole numbers of pixels. *)
Record Component := {
  imageRef : option HTMLImageElement;
  imageWidth : Z;                (* [imageSize.width] *)
  imageHeight : Z;               (* [imageSize.height] *)
  previewWidth : Z;
  settings : CanvasSettings;
  lyrics : jsstring;
  tempContext2d : bool           (* the scratch canvas has a 2D context *)
}.

(** [Raised]: [getImageData] throws IndexSizeError on an empty
    rectangle. *)
Inductive Outcome :=
| Returned (canvas : option HTMLCanvasElement)
| Raised (canvas : option HTMLCanvasElement).

Definition aspect (c : Component) : number :=
  inject_Z (imageWidth c) / inject_Z (imageHeight c).

Definition baseWidth (c : Component) (scale : number) : number :=
  Math_floor (inject_Z (previewWidth c) * scale).

Definition baseHeight (c : Component) (scale : number) : number :=
  Math_floor (inject_Z (previewWidth c) / aspect c) * scale.

Definition scaledFont (c : Component) (scale : number) : number :=
  fontSize (settings c) * scale.

Definition detailFactor (detailBoost : number) : number :=
  Math_max 0.5 (Math_min detailBoost 1).

Definition stepX (c : Component) (scale detailBoost : number) : number :=
  scaledFont c scale * spacing (settings c) * detailFactor detailBoost.

Definition stepY (c : Component) (scale detailBoost : number) : number :=
  scaledFont c scale * spacing (settings c) * 1.4 * detailFactor detailBoost.

(** Lines 127-144: the styling of the cell at [(x, y)], the
    [charIndex]-th one, from its sampled colour [s]. *)
Definition styleOf (c : Component) (scale : number) (s : Sample)
    (x y : number) (charIndex : nat) : MosaicCell :=
  let i := intensity (contrasted (contrast (settings c)) (luminance s)) in
  {| cell_x := x;
     cell_y := y;
     cell_sample := s;
     cell_contrasted := contrasted (contrast (settings c)) (luminance s);
     cell_intensity := i;
     cell_weight := weight i;
     cell_size := size (scaledFont c scale) i;
     cell_fill := fillStyle (monochrome (settings c)) s (alpha i);
     cell_char := glyphAt (textCharacters (lyrics c)) charIndex |}.

(** Lines 109-144: the body of the loops. *)
Definition mosaicCell (c : Component) (imageData : list byte)
    (scale : number) (x y : number) (charIndex : nat) : MosaicCell :=
  styleOf c scale
    (sampleAt imageData (baseWidth c scale) (baseHeight c scale) x y)
    x y charIndex.

(** The loops thread the calls made so far and [charIndex]. *)
Definition LoopState : Type := list DrawOp * nat.

Definition paintCell (c : Component) (imageData : list byte)
    (scale : number) (y x : number) (st : LoopState) : option LoopState :=
  Some (fst st ++ [DrawGlyph (mosaicCell c imageData scale x y (snd st))],
        S (snd st)).

Definition paintRow (fuel : nat) (c : Component) (imageData : list byte)
    (scale detailBoost : number) (y : number) (st : LoopState)
  : option LoopState :=
  forLoop fuel 0 (baseWidth c scale) (stepX c scale detailBoost)
          (paintCell c imageData scale y) st.

Definition paintGrid (fuel : nat) (c : Component) (imageData : list byte)
    (scale detailBoost : number) (st : LoopState) : option LoopState :=
  forLoop fuel 0 (baseHeight c scale) (stepY c scale detailBoost)
          (paintRow fuel c imageData scale detailBoost) st.

Definition BACKGROUND : string := "#FAFAFA".
Definition TOP : string := "top".

(** Lines 91-98: background, underlay, text baseline. *)
Definition prelude (c : Component) (image : HTMLImageElement)
    (w h : number) : list DrawOp :=
  [ ClearRect 0 0 w h;
    SetFillStyle "#FAFAFA"%string;
    FillRect 0 0 w h;
    Save;
    SetGlobalAlpha (underlay (settings c));
    DrawImage image 0 0 w h;
    Restore;
    SetTextBaseline "top"%string ].

Definition resized (cv : HTMLCanvasElement) (w h : number)
  : HTMLCanvasElement :=
  {| width := w; height := h; context2d := context2d cv;
     painted := painted cv |}.

Definition withPainted (cv : HTMLCanvasElement) (ops : list DrawOp)
  : HTMLCanvasElement :=
  {| width := width cv; height := height cv; context2d := context2d cv;
     painted := ops |}.

(** [renderToCanvas(canvas, scale, detailBoost)]; [None] when the loops
    did not end within [fuel] iterations each. *)
Definition renderToCanvas (fuel : nat) (c : Component)
    (canvas : option HTMLCanvasElement) (scale detailBoost : number)
  : option Outcome :=
  match canvas, imageRef c with
  | Some cv, Some imageElement =>
      if falsy (imageWidth c) || falsy (imageHeight c)
      then Some (Returned canvas)
      else
        let w := baseWidth c scale in
        let h := baseHeight c scale in
        let cv1 := resized cv w h in
        if negb (context2d cv) then Some (Returned (Some cv1))
        else if negb (tempContext2d c) then Some (Returned (Some cv1))
        else if Qeq_bool w 0 || Qeq_bool h 0 then Some (Raised (Some cv1))
        else
          let imageData := pixelsAt imageElement w h in
          match paintGrid fuel c imageData scale detailBoost
                  (painted cv1 ++ prelude c imageElement w h, O) with
          | Some st => Some (Returned (Some (withPainted cv1 (fst st))))
          | None => None
          end
  | _, _ => Some (Returned canvas)
  end.

(** The glyph cells among the calls, in drawing order. *)
Fixpoint glyphs (ops : list DrawOp) : list MosaicCell :=
  match ops with
  | [] => []
  | DrawGlyph cell :: rest => cell :: glyphs rest
  | _ :: rest => glyphs rest
  end.

(** The values a loop variable takes, as [forLoop] steps it. *)
Fixpoint scan (fuel : nat) (i limit step : number) : option (list number) :=
  if Qlt_le_dec i limit
  then match fuel with
       | O => None
       | S fuel' => option_map (cons i) (scan fuel' (i + step) limit step)
       end
  else Some [].

(** A number of iterations that is enough for a loop from 0. *)
Definition fuelFor (limit step : number) : nat :=
  Z.to_nat (Qceiling (limit / step)).

(** The grid in traversal order, and the cells painted on it. *)
Definition gridCoords (xs ys : list number) : list (number * number) :=
  flat_map (fun y => map (fun x => (x, y)) xs) ys.

Definition cellsFrom (c : Component) (imageData : list byte)
    (scale : number) (start : nat) (coords : list (number * number))
  : list MosaicCell :=
  map (fun p => mosaicCell c imageData scale (fst (fst p)) (snd (fst p)) (snd p))
      (combine coords (seq start (List.length coords))).

(** The conditions under which a render reaches its loops, and those
    under which the loops end within [fuel] iterations. *)
Record Renderable (c : Component) (cv : HTMLCanvasElement)
    (image : HTMLImageElement) (scale detailBoost : number) : Prop := {
  r_image : imageRef c = Some image;
  r_width : imageWidth c <> 0%Z;
  r_height : imageHeight c <> 0%Z;
  r_context : context2d cv = true;
  r_temp : tempContext2d c = true;
  r_baseWidth : ~ baseWidth c scale == 0;
  r_baseHeight : ~ baseHeight c scale == 0;
  r_stepX : 0 < stepX c scale detailBoost;
  r_stepY : 0 < stepY c scale detailBoost
}.

Definition enoughFuel (c : Component) (scale detailBoost : number)
    (fuel : nat) : Prop :=
  (fuelFor (baseWidth c scale) (stepX c scale detailBoost) <= fuel
   /\ fuelFor (baseHeight c scale) (stepY c scale detailBoost) <= fuel)%nat.

(** The canvas after a render that painted [cells]. *)
Definition rendered (c : Component) (cv : HTMLCanvasElement)
    (image : HTMLImageElement) (scale : number) (cells : list MosaicCell)
  : HTMLCanvasElement :=
  let w := baseWidth c scale in
  let h := baseHeight c scale in
  withPainted (resized cv w h)
    (painted cv ++ prelude c image w h ++ map DrawGlyph cells).

(** An ASCII literal as code units. *)
Definition ofAscii (s : string) : jsstring :=
  map (fun a => N.of_nat (Ascii.nat_of_ascii a)) (list_ascii_of_string s).

Definition DEFAULT_LYRICS : jsstring :=
  ofAscii "Every whispered line becomes a field of light. The chorus blooms, the silence fades, and the story stays.".

(** The state of the page before an image is loaded. *)
Definition initialSession : Component :=
  {| imageRef := None;
     imageWidth := 0;
     imageHeight := 0;
     previewWidth := 720;
     settings := {| fontSize := 18; spacing := 1.2; contrast := 1;
                    monochrome := false; underlay := 0.08 |};
     lyrics := DEFAULT_LYRICS;
     tempContext2d := true |}.

(** An image that scales to uniformly gray pixels. *)
Definition grayImage : HTMLImageElement :=
  {| pixelsAt := fun w h => grayBuffer (Z.to_nat (Qfloor (w * h))) |}.

(** A session: the 100 by 100 gray image in the default preview width
    of 720, contrast 1, no underlay, and an untouched canvas. *)
Definition graySession : Component :=
  {| imageRef := Some grayImage;
     imageWidth := 100;
     imageHeight := 100;
     previewWidth := 720;
     settings := {| fontSize := 18; spacing := 1.2; contrast := 1;
                    monochrome := false; underlay := 0 |};
     lyrics := DEFAULT_LYRICS;
     tempContext2d := true |}.

Definition blankCanvas : HTMLCanvasElement :=
  {| width := 300; height := 150; context2d := true; painted := [] |}.

(** The component with the monochrome setting replaced. *)
Definition withMonochrome (c : Component) (m : bool) : Component :=
  {| imageRef := imageRef c;
     imageWidth := imageWidth c;
     imageHeight := imageHeight c;
     previewWidth := previewWidth c;
     settings := {| fontSize := fontSize (settings c);
                    spacing := spacing (settings c);
                    contrast := contrast (settings c);
                    monochrome := m;
                    underlay := underlay (settings c) |};
     lyrics := lyrics c;
     tempContext2d := tempContext2d c |}.

End Renderer.

(** ** The specification's formulas

    These definitions follow the words of the specification (sections
    4.2 and 4.3), not the code; the theorems below compare the code with
    them. *)

Module Spec.
Import JS.

(** [clamp(v, lo, hi)] *)
Definition clampR (v lo hi : R) : R :=
  if Rlt_dec v lo then lo else if Rlt_dec hi v then hi else v.

Definition luminance (r g b : R) : R :=
  (0.2126 * r + 0.7152 * g + 0.0722 * b)%R.

Definition contrasted (lum contrast : R) : R :=
  clampR ((lum - 128) * contrast + 128)%R 0%R 255%R.

Definition intensity (c : R) : R := Math_pow (1 - c / 255)%R 0.65%R.

Definition weight (i : R) : Z := Math_roundR (300 + i * 600)%R.

Definition glyphSize (fontSize scale i : R) : R :=
  (fontSize * scale * (0.85 + i * 0.8))%R.

Definition alpha (i : R) : R := (0.45 + i * 0.55)%R.

(** Floor and clamp a coordinate into [[0, n-1]]. *)
Definition clampCoord (n : Z) (v : Q) : Z := Z.max 0 (Z.min (Qfloor v) (n - 1)).

(** The primary sample point and its diagonal neighbour on a [w] by [h]
    surface. *)
Definition primary (w h : Z) (x y : Q) : Z * Z :=
  (clampCoord w x, clampCoord h y).

Definition secondary (w h : Z) (x y : Q) : Z * Z :=
  (clampCoord w (x + 1)%Q, clampCoord h (y + 1)%Q).

(** Channel [k] of the RGBA8 pixel at a point of a row-major buffer. *)
Definition texel (data : list byte) (w : Z) (p : Z * Z) (k : Z) : Z :=
  nth (Z.to_nat (4 * (snd p * w + fst p) + k))
      (map (fun b => Z.of_N (Byte.to_N b)) data) 0.

Definition average (a b : Z) : Q := ((inject_Z a + inject_Z b) / 2)%Q.

Definition sampleChannel (data : list byte) (w h : Z) (x y : Q) (k : Z) : Q :=
  average (texel data w (primary w h x y) k)
          (texel data w (secondary w h x y) k).

(** The example of section 8: the derived values of a cell match the
    stated ones within the tolerance. *)
Definition matches (tolerance : R) (contrasted intensity : R) (weight : Z)
    (alpha : R) (cell : Renderer.MosaicCell) : Prop :=
  (Rabs (Q2R (Renderer.cell_contrasted cell) - contrasted) <= tolerance
   /\ Rabs (Renderer.cell_intensity cell - intensity) <= tolerance
   /\ Rabs (IZR (Renderer.cell_weight cell) - IZR weight) <= tolerance
   /\ Rabs (Intensity.ca (Renderer.cell_fill cell) - alpha) <= tolerance)%R.

(** The surface of a render at scale [s] (section 8). *)
Definition surfaceWidth (baseWidth : Z) (s : Q) : Q :=
  inject_Z (Qfloor (inject_Z baseWidth * s)).

Definition surfaceHeight (baseWidth : Z) (aspect s : Q) : Q :=
  (inject_Z (Qfloor (inject_Z baseWidth / aspect)) * s)%Q.

End Spec.


(** ** Shapes of texts and buffers, for the statements below *)

Module Shape.
Import JS Glyph.

(** A text whose whitespace is already collapsed: every whitespace code
    unit is a space and no space follows a space; [inRun] tells that
    the code unit before the text was whitespace. *)
Fixpoint collapsedFrom (inRun : bool) (s : jsstring) : bool :=
  match s with
  | [] => true
  | c :: rest =>
      if isWhiteSpace c
      then (c =? SPACE)%N && negb inRun && collapsedFrom true rest
      else collapsedFrom false rest
  end.

Definition visible (s : jsstring) : jsstring :=
  filter (fun c => negb (isWhiteSpace c)) s.

(** A buffer whose pixels all have the colour [(r, g, b)]. *)
Definition uniformColour (r g b : byte) (data : list byte) : Prop :=
  forall (n : Z) (v : byte),
    (0 <= n)%Z -> nth_error data (Z.to_nat n) = Some v ->
    ((n mod 4 = 0)%Z -> v = r) /\ ((n mod 4 = 1)%Z -> v = g)
    /\ ((n mod 4 = 2)%Z -> v = b).

End Shape.

(** ** The size of the grid *)

Module Grid.
Import JS Renderer.

(** The number of turns of the inner and of the outer loop. *)
Definition columns (c : Component) (scale detailBoost : number) : nat :=
  Z.to_nat (Qceiling (baseWidth c scale / stepX c scale detailBoost)).

Definition rows (c : Component) (scale detailBoost : number) : nat :=
  Z.to_nat (Qceiling (baseHeight c scale / stepY c scale detailBoost)).

End Grid.

(** ** The page: the state of [Home], its handlers and effects *)

Module Page.
Import JS Glyph.
Import Stdlib.Strings.String.
Local Open Scope Q_scope.

Record File := { type : string }.

(** An [Image] whose [onload] has fired. *)
Record LoadedImage := {
  element : Renderer.HTMLImageElement;
  naturalWidth : Z;
  naturalHeight : Z
}.

Record ImageSize := { width : Z; height : Z }.

(** The refs and the state of the component. *)
Record Home := {
  imageRef : option LoadedImage;       (* [imageRef.current] *)
  imageSrc : option string;
  imageSize : ImageSize;
  lyrics : jsstring;
  settings : Renderer.CanvasSettings;
  isDragging : bool;
  processed : bool;
  previewWidth : Z
}.

Definition initialHome : Home :=
  {| imageRef := None;
     imageSrc := None;
     imageSize := {| width := 0; height := 0 |};
     lyrics := Renderer.DEFAULT_LYRICS;
     settings := {| Renderer.fontSize := 18; Renderer.spacing := 1.2;
                    Renderer.contrast := 1; Renderer.monochrome := false;
                    Renderer.underlay := 0.08 |};
     isDragging := false;
     processed := false;
     previewWidth := 720 |}.

(** The state setters. *)
Definition setLyrics (v : jsstring) (h : Home) : Home :=
  {| imageRef := imageRef h; imageSrc := imageSrc h;
     imageSize := imageSize h; lyrics := v; settings := settings h;
     isDragging := isDragging h; processed := processed h;
     previewWidth := previewWidth h |}.

Definition setSettings
    (f : Renderer.CanvasSettings -> Renderer.CanvasSettings) (h : Home)
  : Home :=
  {| imageRef := imageRef h; imageSrc := imageSrc h;
     imageSize := imageSize h; lyrics := lyrics h;
     settings := f (settings h);
     isDragging := isDragging h; processed := processed h;
     previewWidth := previewWidth h |}.

Definition setIsDragging (v : bool) (h : Home) : Home :=
  {| imageRef := imageRef h; imageSrc := imageSrc h;
     imageSize := imageSize h; lyrics := lyrics h; settings := settings h;
     isDragging := v; processed := processed h;
     previewWidth := previewWidth h |}.

Definition setProcessed (v : bool) (h : Home) : Home :=
  {| imageRef := imageRef h; imageSrc := imageSrc h;
     imageSize := imageSize h; lyrics := lyrics h; settings := settings h;
     isDragging := isDragging h; processed := v;
     previewWidth := previewWidth h |}.

Definition setPreviewWidth (v : Z) (h : Home) : Home :=
  {| imageRef := imageRef h; imageSrc := imageSrc h;
     imageSize := imageSize h; lyrics := lyrics h; settings := settings h;
     isDragging := isDragging h; processed := processed h;
     previewWidth := v |}.

(** The updates of the controls: [{...prev, fontSize: v}] and so on. *)
Definition withFontSize (v : number) (s : Renderer.CanvasSettings)
  : Renderer.CanvasSettings :=
  {| Renderer.fontSize := v; Renderer.spacing := Renderer.spacing s;
     Renderer.contrast := Renderer.contrast s;
     Renderer.monochrome := Renderer.monochrome s;
     Renderer.underlay := Renderer.underlay s |}.

Definition withSpacing (v : number) (s : Renderer.CanvasSettings)
  : Renderer.CanvasSettings :=
  {| Renderer.fontSize := Renderer.fontSize s; Renderer.spacing := v;
     Renderer.contrast := Renderer.contrast s;
     Renderer.monochrome := Renderer.monochrome s;
     Renderer.underlay := Renderer.underlay s |}.

Definition withContrast (v : number) (s : Renderer.CanvasSettings)
  : Renderer.CanvasSettings :=
  {| Renderer.fontSize := Renderer.fontSize s;
     Renderer.spacing := Renderer.spacing s; Renderer.contrast := v;
     Renderer.monochrome := Renderer.monochrome s;
     Renderer.underlay := Renderer.underlay s |}.

Definition withUnderlay (v : number) (s : Renderer.CanvasSettings)
  : Renderer.CanvasSettings :=
  {| Renderer.fontSize := Renderer.fontSize s;
     Renderer.spacing := Renderer.spacing s;
     Renderer.contrast := Renderer.contrast s;
     Renderer.monochrome := Renderer.monochrome s; Renderer.underlay := v |}.

Definition toggleMonochrome (s : Renderer.CanvasSettings)
  : Renderer.CanvasSettings :=
  {| Renderer.fontSize := Renderer.fontSize s;
     Renderer.spacing := Renderer.spacing s;
     Renderer.contrast := Renderer.contrast s;
     Renderer.monochrome := negb (Renderer.monochrome s);
     Renderer.underlay := Renderer.underlay s |}.

(** [handleFile]: the file whose load is started, if any.  The state
    changes only later, when [onload] fires. *)
Definition handleFile (file : option File) : option File :=
  match file with
  | None => None
  | Some f => if prefix "image/" (type f) then Some f else None
  end.

(** [img.onload] of [handleFile]. *)
Definition onload (img : LoadedImage) (objectUrl : string) (h : Home)
  : Home :=
  {| imageRef := Some img;
     imageSrc := Some objectUrl;
     imageSize := {| width := naturalWidth img;
                     height := naturalHeight img |};
     lyrics := lyrics h; settings := settings h;
     isDragging := isDragging h;
     processed := false;
     previewWidth := previewWidth h |}.

(** [event.target.files?.[0] ?? null] *)
Definition firstFile (files : option (list File)) : option File :=
  match files with
  | Some (f :: _) => Some f
  | _ => None
  end.

(** [resize] of the mount effect; [None]: [containerRef.current] is
    null. *)
Definition resize (clientWidth : option Z) (h : Home) : Home :=
  match clientWidth with
  | None => h
  | Some cw =>
      let width := Z.min cw 820 in
      setPreviewWidth (Z.max width 280) h
  end.

(** What [renderToCanvas] closes over, in the state [h]. *)
Definition component (h : Home) (tempContext2d : bool)
  : Renderer.Component :=
  {| Renderer.imageRef := option_map element (imageRef h);
     Renderer.imageWidth := width (imageSize h);
     Renderer.imageHeight := height (imageSize h);
     Renderer.previewWidth := previewWidth h;
     Renderer.settings := settings h;
     Renderer.lyrics := lyrics h;
     Renderer.tempContext2d := tempContext2d |}.

(** How a handler or an effect ends. *)
Inductive Completion (A : Type) :=
| Normal (result : A)
| Thrown (result : A).
Arguments Normal {A} result.
Arguments Thrown {A} result.

(** The scale of the preview: [window] is the device pixel ratio, or
    [None] where there is no [window]. *)
Definition previewScale (window : option number) : number :=
  match window with
  | Some devicePixelRatio =>
      Math_min 2 (if Qeq_bool devicePixelRatio 0 then 1
                  else devicePixelRatio)
  | None => 1
  end.

(** The preview effect (lines 153-163): the state and the preview
    canvas after it. *)
Definition previewEffect (fuel : nat) (h : Home) (tempContext2d : bool)
    (canvas : option Renderer.HTMLCanvasElement) (window : option number)
  : option (Completion (Home * option Renderer.HTMLCanvasElement)) :=
  match imageSrc h, canvas with
  | None, _ => Some (Normal (h, canvas))
  | Some _, None => Some (Normal (h, canvas))
  | Some _, Some _ =>
      match Renderer.renderToCanvas fuel (component h tempContext2d) canvas
              (previewScale window) 0.7 with
      | Some (Renderer.Returned canvas') =>
          Some (Normal (setProcessed true h, canvas'))
      | Some (Renderer.Raised canvas') => Some (Thrown (h, canvas'))
      | None => None
      end
  end.

(** [handleDownload] (lines 184-193): the export canvas after it, and
    the canvas whose PNG is downloaded, if the link is clicked. *)
Record Download := {
  hdCanvas : option Renderer.HTMLCanvasElement;
  downloaded : option Renderer.HTMLCanvasElement
}.

Definition handleDownload (fuel : nat) (h : Home) (tempContext2d : bool)
    (hd : option Renderer.HTMLCanvasElement)
  : option (Completion Download) :=
  match imageSrc h with
  | None => Some (Normal {| hdCanvas := hd; downloaded := None |})
  | Some _ =>
      match Renderer.renderToCanvas fuel (component h tempContext2d) hd
              4 1 with
      | Some (Renderer.Returned hd') =>
          Some (Normal {| hdCanvas := hd'; downloaded := hd' |})
      | Some (Renderer.Raised hd') =>
          Some (Thrown {| hdCanvas := hd'; downloaded := None |})
      | None => None
      end
  end.

(** What can happen to the state.  [ImageLoaded file img url]: the load
    that [handleFile(file)] started has ended and [onload] fires; a drop
    or a choice of files changes nothing until then.  [PreviewRendered]:
    the preview effect has run to its end; it reaches
    [setProcessed(true)] only past [if (!imageSrc) return]. *)
Inductive Event :=
| LyricsChanged (value : jsstring)
| FontSizeChanged (value : number)
| SpacingChanged (value : number)
| ContrastChanged (value : number)
| UnderlayChanged (value : number)
| MonochromeClicked
| WindowResized (clientWidth : option Z)
| DragOver
| DragLeave
| Dropped (files : option (list File))
| InputChanged (files : option (list File))
| ImageLoaded (file : option File) (img : LoadedImage) (objectUrl : string)
| PreviewRendered.

Definition step (h : Home) (e : Event) : Home :=
  match e with
  | LyricsChanged v => setLyrics v h
  | FontSizeChanged v => setSettings (withFontSize v) h
  | SpacingChanged v => setSettings (withSpacing v) h
  | ContrastChanged v => setSettings (withContrast v) h
  | UnderlayChanged v => setSettings (withUnderlay v) h
  | MonochromeClicked => setSettings toggleMonochrome h
  | WindowResized cw => resize cw h
  | DragOver => setIsDragging true h
  | DragLeave => setIsDragging false h
  | Dropped _ => setIsDragging false h
  | InputChanged _ => h
  | ImageLoaded file img objectUrl =>
      match handleFile file with
      | Some _ => onload img objectUrl h
      | None => h
      end
  | PreviewRendered =>
      match imageSrc h with
      | Some _ => setProcessed true h
      | None => h
      end
  end.

Definition run (events : list Event) (h : Home) : Home :=
  fold_left step events h.

(** What the handlers keep true of the state. *)
Definition consistent (h : Home) : Prop :=
  (280 <= previewWidth h <= 820)%Z
  /\ (imageSrc h = None <-> imageRef h = None)
  /\ (forall img, imageRef h = Some img ->
        imageSize h = {| width := naturalWidth img;
                         height := naturalHeight img |})
  /\ (imageRef h = None -> imageSize h = {| width := 0; height := 0 |})
  /\ (processed h = true -> imageSrc h <> None).

End Page.
(** ** Facts about the glyph stream *)

Module GlyphFacts.
Import Glyph.

Lemma replaceRuns_all_ws (s : jsstring) (inRun : bool) :
  Forall (fun c => isWhiteSpace c = true) s ->
  replaceRuns inRun s = [] \/ replaceRuns inRun s = [SPACE].
Proof.
  intros Hall; revert inRun.
  induction Hall as [|c rest Hc Hrest IH]; intros inRun; cbn; [now left|].
  rewrite Hc.
  destruct inRun.
  - apply IH.
  - right.
    assert (Hrun : forall t, Forall (fun c => isWhiteSpace c = true) t ->
                             replaceRuns true t = []).
    { clear. induction 1 as [|d t Hd _ IHt]; cbn; [easy|]. now rewrite Hd. }
    now rewrite (Hrun rest Hrest).
Qed.

Lemma trimStart_In (s : jsstring) (c : codeunit) :
  In c s -> isWhiteSpace c = false -> In c (trimStart s).
Proof.
  induction s as [|d rest IH]; cbn; [easy|].
  intros [-> | Hin] Hc.
  - rewrite Hc. now left.
  - destruct (isWhiteSpace d); [now apply IH | now right].
Qed.

Lemma trim_In (s : jsstring) (c : codeunit) :
  In c s -> isWhiteSpace c = false -> In c (trim s).
Proof.
  intros Hin Hc. unfold trim, trimEnd.
  apply (proj1 (in_rev _ _)), trimStart_In; [|exact Hc].
  apply (proj1 (in_rev _ _)). now apply trimStart_In.
Qed.

Lemma replaceRuns_In (s : jsstring) (c : codeunit) (inRun : bool) :
  In c s -> isWhiteSpace c = false -> In c (replaceRuns inRun s).
Proof.
  revert inRun. induction s as [|d rest IH]; cbn; [easy|].
  intros inRun [-> | Hin] Hc.
  - rewrite Hc. now left.
  - destruct (isWhiteSpace d), inRun; cbn; auto.
Qed.

(** The text vanishes under [sanitize] exactly when it holds nothing but
    whitespace. *)
Lemma sanitize_nil_iff (lyrics : jsstring) :
  sanitize lyrics = [] <-> Forall (fun c => isWhiteSpace c = true) lyrics.
Proof.
  unfold sanitize. split.
  - intros Hnil. apply Forall_forall. intros c Hin.
    destruct (isWhiteSpace c) eqn:Hc; [reflexivity|].
    exfalso.
    assert (Hmem : In c (trim (replaceRuns false lyrics)))
      by (apply trim_In; [apply replaceRuns_In|]; assumption).
    rewrite Hnil in Hmem. destruct Hmem.
  - intros Hall.
    destruct (replaceRuns_all_ws lyrics false Hall) as [-> | ->];
      reflexivity.
Qed.

(** The stream is never empty. *)
Lemma textCharacters_length (lyrics : jsstring) :
  (0 < length (textCharacters lyrics))%nat.
Proof.
  unfold textCharacters.
  destruct (0 <? length (sanitize lyrics))%nat eqn:Hlen.
  - now apply Nat.ltb_lt.
  - cbn. lia.
Qed.

Lemma glyphAt_defined (chars : list codeunit) (i : nat) :
  (0 < length chars)%nat ->
  exists c, nth_error chars (i mod length chars)%nat = Some c
            /\ glyphAt chars i = Some (safeChar c).
Proof.
  intros Hlen.
  assert (Hlt : (i mod length chars < length chars)%nat)
    by (apply Nat.mod_upper_bound; lia).
  destruct (nth_error chars (i mod length chars)%nat) as [c|] eqn:Hnth.
  - exists c. unfold glyphAt. now rewrite Hnth.
  - apply nth_error_None in Hnth. lia.
Qed.

Lemma glyphAt_shift (chars : list codeunit) (i : nat) :
  glyphAt chars (i + length chars) = glyphAt chars i.
Proof.
  unfold glyphAt.
  destruct (length chars) as [|n] eqn:Hlen.
  - destruct chars; [|discriminate]. cbn.
    now destruct (i + 0)%nat, i.
  - replace (i + S n)%nat with (i + 1 * S n)%nat by lia.
    now rewrite Nat.Div0.mod_add.
Qed.

(** C7: the sequencer reads the stream cyclically.  For every text and
    every index [i], [glyphAt] returns the code unit at position
    [i mod N] of the stream, a newline replaced by a space, where [N],
    the length of the stream, is positive; and the index [i + N] gives
    the same glyph as [i]. *)
Theorem glyph_sequencer_cyclic (lyrics : jsstring) (i : nat) :
  let stream := textCharacters lyrics in
  let N := length stream in
  (0 < N)%nat
  /\ (exists c, nth_error stream (i mod N)%nat = Some c
                /\ glyphAt stream i
                   = Some (if (c =? LF)%N then SPACE else c))
  /\ glyphAt stream (i + N) = glyphAt stream i.
Proof.
  cbv zeta. split; [apply textCharacters_length|]. split.
  - destruct (glyphAt_defined (textCharacters lyrics) i
                (textCharacters_length lyrics)) as [c [Hnth Hat]].
    exists c. split; [exact Hnth | exact Hat].
  - apply glyphAt_shift.
Qed.

(** C8: when nothing is left of the text after the whitespace runs are
    collapsed and the ends trimmed, the stream is the one placeholder
    glyph and every index reads it. *)
Theorem empty_text_placeholder (lyrics : jsstring) (i : nat) :
  sanitize lyrics = [] ->
  textCharacters lyrics = [BULLET]
  /\ glyphAt (textCharacters lyrics) i = Some BULLET.
Proof.
  intros Hempty.
  assert (Hstream : textCharacters lyrics = [BULLET])
    by (unfold textCharacters; now rewrite Hempty).
  split; [exact Hstream|].
  rewrite Hstream. unfold glyphAt. cbn [length].
  now rewrite Nat.mod_1_r.
Qed.

Lemma empty_text_placeholder_witness :
  sanitize [9%N; 32%N; 10%N] = []
  /\ textCharacters [9%N; 32%N; 10%N] = [BULLET]
  /\ glyphAt (textCharacters [9%N; 32%N; 10%N]) 5 = Some BULLET.
Proof.
  split; [reflexivity|].
  apply (empty_text_placeholder [9%N; 32%N; 10%N] 5). reflexivity.
Defined.

(** The stream proper holds no newline, so the replacement in
    [safeChar] never changes a glyph. *)
Lemma replaceRuns_no_LF (s : jsstring) (inRun : bool) :
  ~ In LF (replaceRuns inRun s).
Proof.
  revert inRun. induction s as [|c rest IH]; intros inRun; cbn; [easy|].
  destruct (isWhiteSpace c) eqn:Hc.
  - destruct inRun; [apply IH|].
    intros [Heq | Hin]; [discriminate | now apply IH in Hin].
  - intros [Heq | Hin]; [subst c; discriminate | now apply IH in Hin].
Qed.

Lemma trimStart_incl (s : jsstring) (c : codeunit) :
  In c (trimStart s) -> In c s.
Proof.
  induction s as [|d rest IH]; cbn; [easy|].
  destruct (isWhiteSpace d); [right; now apply IH | easy].
Qed.

Lemma textCharacters_no_LF (lyrics : jsstring) :
  ~ In LF (textCharacters lyrics).
Proof.
  unfold textCharacters.
  destruct (0 <? length (sanitize lyrics))%nat.
  - unfold sanitize, trim, trimEnd. intros Hin.
    apply (proj2 (in_rev _ _)), trimStart_incl in Hin.
    apply (proj2 (in_rev _ _)), trimStart_incl in Hin.
    now apply replaceRuns_no_LF in Hin.
  - intros [Heq | []]. discriminate.
Qed.

End GlyphFacts.

(** ** Facts about numbers and typed-array reads *)

Module JSFacts.
Import JS.

Lemma Qmin_inject_Z (a b : Z) :
  Qmin (inject_Z a) (inject_Z b) = inject_Z (Z.min a b).
Proof.
  unfold Qmin, GenericMinMax.gmin, Z.min, Qcompare. cbn.
  rewrite !Z.mul_1_r. now destruct (a ?= b).
Qed.

Lemma Qmax_inject_Z (a b : Z) :
  Qmax (inject_Z a) (inject_Z b) = inject_Z (Z.max a b).
Proof.
  unfold Qmax, GenericMinMax.gmax, Z.max, Qcompare. cbn.
  rewrite !Z.mul_1_r.
  now destruct (a ?= b).
Qed.

Lemma isIndex_inject_Z (n : Z) : isIndex (inject_Z n) = (0 <=? n).
Proof.
  unfold isIndex. rewrite Qfloor_Z.
  assert (Hrefl : Qeq_bool (inject_Z n) (inject_Z n) = true)
    by (apply Qeq_bool_iff; reflexivity).
  now rewrite Hrefl.
Qed.

Lemma typedArrayGet_inject_Z (data : list byte) (n : Z) :
  0 <= n ->
  typedArrayGet data (inject_Z n)
  = option_map byteValue (nth_error data (Z.to_nat n)).
Proof.
  intros Hn. unfold typedArrayGet.
  rewrite isIndex_inject_Z, Qfloor_Z.
  now destruct (Z.leb_spec 0 n); [|lia].
Qed.

Lemma byteValue_range (b : byte) : (0 <= byteValue b <= 255)%Q.
Proof.
  unfold byteValue.
  pose proof (Byte.to_N_bounded b) as Hb.
  split.
  - change 0%Q with (inject_Z 0). rewrite <- Zle_Qle. lia.
  - change 255%Q with (inject_Z 255). rewrite <- Zle_Qle. lia.
Qed.

Lemma orZero_get_range (data : list byte) (i : number) :
  (0 <= orZero (typedArrayGet data i) <= 255)%Q.
Proof.
  unfold typedArrayGet.
  destruct (isIndex i); [|cbn; split; discriminate].
  destruct (nth_error data (Z.to_nat (Qfloor i))) as [b|]; cbn.
  - apply byteValue_range.
  - split; discriminate.
Qed.

Lemma half_sum_range (a b : Q) :
  (0 <= a <= 255 -> 0 <= b <= 255 -> 0 <= (a + b) / 2 <= 255)%Q.
Proof.
  intros [Ha0 Ha1] [Hb0 Hb1]. split.
  - apply Qle_shift_div_l; [reflexivity|]. lra.
  - apply Qle_shift_div_r; [reflexivity|]. lra.
Qed.

End JSFacts.

(** ** Facts about the pixel sampler *)

Module SamplerFacts.
Import JS Sampler JSFacts.

Ltac to_inject_Z :=
  unfold Qminus;
  change 0%Q with (inject_Z 0); change 1%Q with (inject_Z 1);
  change 2%Q with (inject_Z 2); change 4%Q with (inject_Z 4);
  repeat (rewrite <- inject_Z_opp || rewrite <- inject_Z_plus
          || rewrite <- inject_Z_mult || rewrite Qmax_inject_Z
          || rewrite Qmin_inject_Z).

Section IntegerSurface.
Variables w h : Z.
Variables x y : Q.

Lemma sampleX_int : sampleX (inject_Z w) x = inject_Z (col w x).
Proof.
  unfold sampleX, Math_min, Math_max, Math_floor, Sampler.col.
  to_inject_Z. f_equal.
Qed.

Lemma sampleY_int : sampleY (inject_Z h) y = inject_Z (row h y).
Proof.
  unfold sampleY, Math_min, Math_max, Math_floor, Sampler.row.
  to_inject_Z. f_equal.
Qed.

Lemma pixelIndex_int :
  pixelIndex (inject_Z w) (inject_Z h) x y
  = inject_Z ((row h y * w + col w x) * 4).
Proof.
  unfold pixelIndex. rewrite sampleX_int, sampleY_int.
  now to_inject_Z.
Qed.

Lemma altIndex_int :
  altIndex (inject_Z w) (inject_Z h) x y
  = inject_Z ((altRow h y * w + altCol w x) * 4).
Proof.
  unfold altIndex, Math_min. rewrite sampleX_int, sampleY_int.
  unfold Sampler.altRow, Sampler.altCol. to_inject_Z. f_equal.
Qed.

Hypothesis Hw : 1 <= w.
Hypothesis Hh : 1 <= h.

Lemma col_range : 0 <= col w x <= w - 1.
Proof. unfold Sampler.col. lia. Qed.

Lemma row_range : 0 <= row h y <= h - 1.
Proof. unfold Sampler.row. lia. Qed.

Lemma altCol_range : 0 <= altCol w x <= w - 1.
Proof. unfold Sampler.altCol, Sampler.col. lia. Qed.

Lemma altRow_range : 0 <= altRow h y <= h - 1.
Proof. unfold Sampler.altRow, Sampler.row. lia. Qed.

(** A pixel inside the surface and a channel offset give an index
    inside a buffer of [4 * w * h] bytes. *)
Lemma channel_index_range (r c k : Z) :
  0 <= r <= h - 1 -> 0 <= c <= w - 1 -> 0 <= k <= 3 ->
  0 <= (r * w + c) * 4 + k < 4 * w * h.
Proof. intros Hr Hc Hk. nia. Qed.

Variable data : list byte.
Hypothesis Hlen : length data = Z.to_nat (4 * w * h).

Lemma read_inBounds (r c k : Z) :
  0 <= r <= h - 1 -> 0 <= c <= w - 1 -> 0 <= k <= 3 ->
  inBounds data (inject_Z ((r * w + c) * 4) + inject_Z k)%Q.
Proof.
  intros Hr Hc Hk.
  pose proof (channel_index_range r c k Hr Hc Hk) as Hn.
  assert (Hnat : (Z.to_nat ((r * w + c) * 4 + k) < length data)%nat)
    by (rewrite Hlen; lia).
  destruct (nth_error data (Z.to_nat ((r * w + c) * 4 + k)))
    as [b|] eqn:Hnth; [|apply nth_error_None in Hnth; lia].
  exists ((r * w + c) * 4 + k), b.
  rewrite <- inject_Z_plus. repeat split; try lia; try assumption.
  rewrite typedArrayGet_inject_Z by lia. now rewrite Hnth.
Qed.

End IntegerSurface.

(** Reads respect the equality of rationals. *)
Lemma typedArrayGet_comp (data : list byte) (i j : number) :
  i == j -> typedArrayGet data i = typedArrayGet data j.
Proof.
  intros Hij. unfold typedArrayGet, isIndex.
  assert (Hfl : Qfloor i = Qfloor j) by now rewrite Hij.
  rewrite Hfl.
  assert (Hb : Qeq_bool i (inject_Z (Qfloor j))
               = Qeq_bool j (inject_Z (Qfloor j))).
  { destruct (Qeq_bool j (inject_Z (Qfloor j))) eqn:Hj.
    - apply Qeq_bool_iff. apply Qeq_bool_iff in Hj. now rewrite Hij.
    - destruct (Qeq_bool i (inject_Z (Qfloor j))) eqn:Hi; [|reflexivity].
      apply Qeq_bool_iff in Hi. rewrite Hij in Hi.
      apply Qeq_bool_iff in Hi. congruence. }
  now rewrite Hb.
Qed.

Lemma inBounds_comp (data : list byte) (i j : number) :
  i == j -> inBounds data i -> inBounds data j.
Proof.
  intros Hij (n & b & Hn & Hrange & Hnth & Hget).
  exists n, b. repeat split; try tauto.
  - now rewrite <- Hij.
  - now rewrite <- (typedArrayGet_comp data i j Hij).
Qed.



(** The floor of a rational is the integer just below it. *)
Lemma Qfloor_unique (q : Q) (z : Z) :
  (inject_Z z <= q)%Q -> (q < inject_Z (z + 1))%Q -> Qfloor q = z.
Proof.
  intros Hlo Hhi.
  assert (Hge : z <= Qfloor q)
    by (rewrite <- (Qfloor_Z z); now apply Qfloor_resp_le).
  assert (Hlt : Qfloor q < z + 1).
  { rewrite Zlt_Qlt. eapply Qle_lt_trans; [apply Qfloor_le | exact Hhi]. }
  lia.
Qed.

Lemma Qfloor_succ (q : Q) : Qfloor (q + 1) = Qfloor q + 1.
Proof.
  apply Qfloor_unique.
  - rewrite inject_Z_plus. apply Qplus_le_l, Qfloor_le.
  - pose proof (Qlt_floor q) as Hlt.
    rewrite !inject_Z_plus in *. change (inject_Z 1) with 1%Q in *. lra.
Qed.

Lemma Qfloor_nonneg (q : Q) : (0 <= q)%Q -> 0 <= Qfloor q.
Proof.
  intros Hq. rewrite <- (Qfloor_Z 0). now apply Qfloor_resp_le.
Qed.

(** A read with the [?? 0] fallback, as a lookup with default 0. *)
Lemma orZero_get_nth (data : list byte) (n : Z) :
  0 <= n ->
  orZero (typedArrayGet data (inject_Z n))
  = inject_Z (nth (Z.to_nat n) (map (fun b => Z.of_N (Byte.to_N b)) data) 0).
Proof.
  intros Hn. rewrite typedArrayGet_inject_Z by exact Hn.
  generalize (Z.to_nat n) as m. clear.
  induction data as [|b rest IH]; intros [|m]; cbn; try reflexivity.
  apply IH.
Qed.

Lemma channel_spec (data : list byte) (w r c r' c' k : Z) :
  0 <= r -> 0 <= c -> 0 <= r' -> 0 <= c' -> 0 <= w -> 0 <= k ->
  ((orZero (typedArrayGet data (inject_Z ((r * w + c) * 4) + inject_Z k))
    + orZero (typedArrayGet data (inject_Z ((r' * w + c') * 4) + inject_Z k)))
   / 2)%Q
  = Spec.average (Spec.texel data w (c, r) k) (Spec.texel data w (c', r') k).
Proof.
  intros Hr Hc Hr' Hc' Hw Hk.
  rewrite <- !inject_Z_plus.
  rewrite !orZero_get_nth by nia.
  unfold Spec.average, Spec.texel. cbn [fst snd].
  replace (4 * (r * w + c) + k) with ((r * w + c) * 4 + k) by ring.
  replace (4 * (r' * w + c') + k) with ((r' * w + c') * 4 + k) by ring.
  reflexivity.
Qed.

(** For non-negative coordinates the code's two taps are the points of
    the specification. *)
Lemma taps_spec (w h : Z) (x y : Q) :
  1 <= w -> 1 <= h -> (0 <= x)%Q -> (0 <= y)%Q ->
  Spec.primary w h x y = (col w x, row h y)
  /\ Spec.secondary w h x y = (altCol w x, altRow h y).
Proof.
  intros Hw Hh Hx Hy.
  pose proof (Qfloor_nonneg x Hx). pose proof (Qfloor_nonneg y Hy).
  unfold Spec.primary, Spec.secondary, Spec.clampCoord,
    altCol, altRow, col, row.
  rewrite !Qfloor_succ. split; f_equal; lia.
Qed.

(** Every channel the sampler returns is within [[0, 255]], whatever the
    buffer, the surface and the coordinate. *)
Lemma sampleAt_range (data : list byte) (w h x y : number) :
  let s := sampleAt data w h x y in
  (0 <= red s <= 255 /\ 0 <= green s <= 255 /\ 0 <= blue s <= 255)%Q.
Proof.
  cbn. unfold channel.
  repeat split; apply half_sum_range; apply orZero_get_range.
Qed.



(** Outside the integer surfaces of the two theorems above: the height
    the renderer computes is [floor(previewWidth / aspect) * scale], and
    a fractional scale can make it fractional.  At preview width 720,
    scale 1.25 and a 16:9 image it is 506.25 on a width of 900, while a
    canvas has whole rows, 506 of them.  The second tap of the
    coordinate (700, 505.3) is then computed beyond the last byte of
    the buffer, and the read falls back to 0. *)
Remark fractional_height_read_falls_back (data : list byte) :
  length data = Z.to_nat (4 * 900 * 506) ->
  typedArrayGet data (altIndex 900%Q (2025 # 4) 700%Q (5053 # 10)) = None.
Proof.
  intros Hlen. unfold typedArrayGet.
  replace (isIndex (altIndex 900%Q (2025 # 4) 700%Q (5053 # 10)))
    with true by (vm_compute; reflexivity).
  replace (Qfloor (altIndex 900%Q (2025 # 4) 700%Q (5053 # 10)))
    with 1821704 by (vm_compute; reflexivity).
  assert (Hout : nth_error data (Z.to_nat 1821704) = None)
    by (apply nth_error_None; rewrite Hlen; lia).
  now rewrite Hout.
Qed.

(** The sampler depends on the surface dimensions up to the equality of
    rationals only. *)
Lemma sampleAt_comp (data : list byte) (w w' h h' x y : number) :
  (w == w')%Q -> (h == h')%Q ->
  sampleAt data w h x y = sampleAt data w' h' x y.
Proof.
  intros Hw Hh.
  assert (Hp : (pixelIndex w h x y == pixelIndex w' h' x y)%Q)
    by (unfold pixelIndex, sampleX, sampleY, Math_min, Math_max;
        now rewrite Hw, Hh).
  assert (Ha : (altIndex w h x y == altIndex w' h' x y)%Q)
    by (unfold altIndex, sampleX, sampleY, Math_min, Math_max;
        now rewrite Hw, Hh).
  unfold sampleAt, channel.
  rewrite (typedArrayGet_comp data _ _ Hp), (typedArrayGet_comp data _ _ Ha).
  assert (Hk : forall k : Q,
             typedArrayGet data (pixelIndex w h x y + k)%Q
             = typedArrayGet data (pixelIndex w' h' x y + k)%Q
             /\ typedArrayGet data (altIndex w h x y + k)%Q
                = typedArrayGet data (altIndex w' h' x y + k)%Q)
    by (intros k; split; apply typedArrayGet_comp;
        [now rewrite Hp | now rewrite Ha]).
  destruct (Hk 1%Q) as [-> ->]. destruct (Hk 2%Q) as [-> ->].
  reflexivity.
Qed.

(** *** A uniformly gray buffer *)

Lemma grayBuffer_length (n : nat) : length (grayBuffer n) = (4 * n)%nat.
Proof. induction n as [|n IH]; cbn [grayBuffer length]; lia. Qed.

Lemma grayBuffer_uniform (n : nat) : uniformGray (grayBuffer n).
Proof.
  induction n as [|n IH]; intros k b Hk Hnth Hmod.
  - destruct (Z.to_nat k); discriminate.
  - destruct (Z.to_nat k) as [|[|[|[|m]]]] eqn:Hnat;
      cbn in Hnth; try congruence.
    + exfalso. apply Hmod.
      replace k with 3 by lia. reflexivity.
    + apply (IH (k - 4)); [lia | |].
      * replace (Z.to_nat (k - 4)) with m by lia. exact Hnth.
      * intros Hmod'. apply Hmod.
        replace k with (k - 4 + 1 * 4) by ring.
        now rewrite Z.mod_add by lia.
Qed.

Section GrayBuffer.
Variables (data : list byte) (w h : Z).
Hypothesis Hw : 1 <= w.
Hypothesis Hh : 1 <= h.
Hypothesis Hlen : length data = Z.to_nat (4 * w * h).
Hypothesis Hgray : uniformGray data.

Lemma gray_read (r c k : Z) :
  0 <= r <= h - 1 -> 0 <= c <= w - 1 -> 0 <= k <= 2 ->
  orZero (typedArrayGet data (inject_Z ((r * w + c) * 4) + inject_Z k)%Q)
  = 128%Q.
Proof.
  intros Hr Hc Hk.
  assert (Hn : 0 <= (r * w + c) * 4 + k < 4 * w * h) by nia.
  rewrite <- inject_Z_plus, typedArrayGet_inject_Z by lia.
  destruct (nth_error data (Z.to_nat ((r * w + c) * 4 + k)))
    as [b|] eqn:Hnth.
  - rewrite (Hgray _ b (proj1 Hn) Hnth); [reflexivity|].
    rewrite Z.add_comm, Z.mod_add by lia.
    rewrite Z.mod_small; lia.
  - apply nth_error_None in Hnth. lia.
Qed.

Lemma gray_sample (x y : Q) :
  sampleAt data (inject_Z w) (inject_Z h) x y
  = {| red := (128 + 128) / 2; green := (128 + 128) / 2;
       blue := (128 + 128) / 2 |}%Q.
Proof.
  pose proof (row_range h y Hh) as Hrow.
  pose proof (col_range w x Hw) as Hcol.
  pose proof (altRow_range h y Hh) as Harow.
  pose proof (altCol_range w x Hw) as Hacol.
  assert (Hzero : forall q : Q, (q == q + inject_Z 0)%Q)
    by (intros q; ring).
  unfold sampleAt, channel. rewrite pixelIndex_int, altIndex_int.
  rewrite (typedArrayGet_comp data _ _ (Hzero (inject_Z _))).
  rewrite (typedArrayGet_comp data
             (inject_Z ((altRow h y * w + altCol w x) * 4)) _ (Hzero _)).
  change 1%Q with (inject_Z 1). change 2%Q with (inject_Z 2).
  rewrite !gray_read by lia. reflexivity.
Qed.
End GrayBuffer.

End SamplerFacts.

(** ** Facts about the intensity mapper *)

Module IntensityFacts.
Import JS Sampler Intensity.
Local Open Scope R_scope.

Lemma Rpower_one (e : R) : Rpower 1 e = 1.
Proof. unfold Rpower. now rewrite ln_1, Rmult_0_r, exp_0. Qed.

Lemma Math_pow_range (b e : R) :
  0 <= b <= 1 -> 0 <= e -> 0 <= Math_pow b e <= 1.
Proof.
  intros [Hb0 Hb1] He. unfold Math_pow.
  destruct (Rlt_dec 0 b) as [Hpos|_]; [|lra].
  split.
  - left. unfold Rpower. apply exp_pos.
  - rewrite <- (Rpower_one e). apply Rle_Rpower_l; [exact He | lra].
Qed.

Lemma Math_pow_pos (b e : R) : 0 < b -> Math_pow b e = Rpower b e.
Proof.
  intros Hb. unfold Math_pow. now destruct (Rlt_dec 0 b).
Qed.

(** The clamp of the code, read in [R], is the clamp of the
    specification. *)
Lemma Q2R_clamp (v : Q) :
  Q2R (clamp v 0%Q 255%Q) = Spec.clampR (Q2R v) 0 255.
Proof.
  unfold clamp, Math_min, Math_max, Spec.clampR.
  destruct (Q.max_spec v 0%Q) as [[Hlt Hmax] | [Hle Hmax]];
    destruct (Q.min_spec (Qmax v 0%Q) 255%Q) as [[Hlt' Hmin] | [Hle' Hmin]];
    rewrite (Qeq_eqR _ _ Hmin); rewrite ?(Qeq_eqR _ _ Hmax);
    rewrite Hmax in *;
    try apply Qlt_Rlt in Hlt; try apply Qle_Rle in Hle;
    try apply Qlt_Rlt in Hlt'; try apply Qle_Rle in Hle';
    destruct (Rlt_dec (Q2R v) 0); destruct (Rlt_dec 255 (Q2R v));
    lra.
Qed.

Lemma clampR_range (v : R) : 0 <= Spec.clampR v 0 255 <= 255.
Proof.
  unfold Spec.clampR.
  destruct (Rlt_dec v 0); [lra|]. destruct (Rlt_dec 255 v); lra.
Qed.

Lemma contrasted_range (contrast lum : Q) :
  (0 <= contrasted contrast lum <= 255)%Q.
Proof.
  unfold contrasted.
  pose proof (clampR_range (Q2R ((lum - 128) * contrast + 128)%Q)) as Hr.
  rewrite <- Q2R_clamp in Hr. destruct Hr as [H0 H255].
  split; apply Rle_Qle; lra.
Qed.

Lemma Q2R_base (c : Q) : Q2R (1 - c / 255)%Q = 1 - Q2R c / 255.
Proof.
  rewrite Q2R_minus, Q2R_div by discriminate. lra.
Qed.

(** The base handed to [Math.pow] is never negative. *)
Lemma base_nonneg (contrast lum : Q) :
  0 <= Q2R (1 - contrasted contrast lum / 255)%Q <= 1.
Proof.
  rewrite Q2R_base.
  destruct (contrasted_range contrast lum) as [H0 H255].
  apply Qle_Rle in H0, H255. lra.
Qed.

Lemma intensity_range (contrast lum : Q) :
  0 <= intensity (contrasted contrast lum) <= 1.
Proof.
  unfold intensity. apply Math_pow_range; [apply base_nonneg | lra].
Qed.

Lemma Math_roundR_bounds (x : R) (lo hi : Z) :
  IZR lo <= x <= IZR hi -> (lo <= Math_roundR x <= hi)%Z.
Proof.
  intros [Hlo Hhi]. unfold Math_roundR. split.
  - apply Zfloor_lub. lra.
  - pose proof (Zfloor_bound (x + / 2)) as [Hfl _].
    assert (Hlt : IZR (Zfloor (x + / 2)) < IZR (hi + 1))
      by (rewrite plus_IZR; lra).
    apply lt_IZR in Hlt. lia.
Qed.

(** [Math.round] returns an integer nearest to its argument. *)
Lemma Math_roundR_nearest (x : R) :
  - / 2 < IZR (Math_roundR x) - x <= / 2.
Proof.
  unfold Math_roundR. pose proof (Zfloor_bound (x + / 2)). lra.
Qed.

Lemma weight_range (i : R) : 0 <= i <= 1 -> (300 <= weight i <= 900)%Z.
Proof.
  intros Hi. unfold weight. apply Math_roundR_bounds. lra.
Qed.

Lemma alpha_range (i : R) : 0 <= i <= 1 -> 0.45 <= alpha i <= 1.
Proof. intros Hi. unfold alpha. lra. Qed.

Lemma Q2R_luminance (s : Sample) :
  Q2R (luminance s)
  = Spec.luminance (Q2R (red s)) (Q2R (green s)) (Q2R (blue s)).
Proof.
  unfold luminance, Spec.luminance.
  now rewrite !Q2R_plus, !Q2R_mult.
Qed.

Lemma Q2R_contrasted (contrast lum : Q) :
  Q2R (contrasted contrast lum) = Spec.contrasted (Q2R lum) (Q2R contrast).
Proof.
  unfold contrasted, Spec.contrasted. rewrite Q2R_clamp.
  f_equal. rewrite Q2R_plus, Q2R_mult, Q2R_minus. lra.
Qed.

Lemma intensity_spec (contrast lum : Q) :
  intensity (contrasted contrast lum)
  = Spec.intensity (Spec.contrasted (Q2R lum) (Q2R contrast)).
Proof.
  unfold intensity, Spec.intensity.
  now rewrite Q2R_base, Q2R_contrasted.
Qed.

(** *** The mid-gray value of the power

    [x ^ 0.65] is the 20th root of [x ^ 13], so a rational bound on it
    is a comparison of integers. *)

Lemma Rpower_root_pow (x e : R) (p q : nat) :
  0 < x -> e * INR q = INR p -> Rpower x e ^ q = x ^ p.
Proof.
  intros Hx He.
  rewrite <- (Rpower_pow q) by (unfold Rpower; apply exp_pos).
  rewrite Rpower_mult, He. now apply Rpower_pow.
Qed.

Lemma pow_lt_inv (a b : R) (n : nat) :
  0 <= a -> 0 <= b -> a ^ n < b ^ n -> a < b.
Proof.
  intros Ha Hb Hlt. destruct (Rlt_le_dec a b) as [H|H]; [exact H|].
  exfalso. pose proof (pow_incr b a n (conj Hb H)). lra.
Qed.

Lemma Rabs_le_inv (x a : R) : Rabs x <= a -> - a <= x <= a.
Proof.
  unfold Rabs. destruct (Rcase_abs x); lra.
Qed.

Lemma gray_power_bounds : 0.6356 < Rpower (127 / 255) 0.65 < 0.6357.
Proof.
  assert (Hx : 0 < 127 / 255) by lra.
  assert (Hpos : 0 < Rpower (127 / 255) 0.65)
    by (unfold Rpower; apply exp_pos).
  assert (Hpow : Rpower (127 / 255) 0.65 ^ 20 = (127 / 255) ^ 13).
  { apply Rpower_root_pow; [exact Hx|]. simpl. lra. }
  split; apply (pow_lt_inv _ _ 20); try lra; rewrite Hpow; lra.
Qed.

(** The styling of a contrasted luminance of 128. *)
Lemma gray_styling (c : Q) :
  (c == 128)%Q ->
  0.6356 < intensity c < 0.6357
  /\ weight (intensity c) = 681%Z
  /\ 0.7995 < alpha (intensity c) < 0.7997.
Proof.
  intros Hc.
  assert (Hbase : (1 - c / 255 == 127 # 255)%Q) by (rewrite Hc; reflexivity).
  assert (Hi : intensity c = Rpower (127 / 255) 0.65).
  { unfold intensity. rewrite (Qeq_eqR _ _ Hbase).
    replace (Q2R (127 # 255)) with (127 / 255) by (unfold Q2R; simpl; lra).
    apply Math_pow_pos. lra. }
  rewrite Hi. pose proof gray_power_bounds as [Hlo Hhi].
  split; [split; assumption|]. split.
  - unfold weight, Math_roundR. apply Zfloor_eq. lra.
  - unfold alpha. lra.
Qed.

End IntensityFacts.

(** ** Facts about the loops *)

Module LoopFacts.
Import JS Renderer.
Local Open Scope Q_scope.

Section ForLoop.
Context {St : Type}.
Variables limit step : number.
Variable body : number -> St -> option St.

Lemma fold_turn_None (xs : list number) :
  fold_left (turn body) xs None = None.
Proof. induction xs as [|x xs IH]; [reflexivity | exact IH]. Qed.

(** [forLoop] runs [body] on the values listed by [scan]. *)
Lemma forLoop_scan (fuel : nat) :
  forall (i : number) (st : St) (xs : list number),
    scan fuel i limit step = Some xs ->
    forLoop fuel i limit step body st = fold_left (turn body) xs (Some st).
Proof.
  induction fuel as [|fuel IH]; intros i st xs; cbn;
    destruct (Qlt_le_dec i limit) as [Hlt|Hge]; try discriminate;
    try (intros [= <-]; reflexivity).
  destruct (scan fuel (i + step) limit step) as [xs'|] eqn:Hscan;
    [|discriminate].
  intros [= <-]. cbn.
  destruct (body i st) as [st'|].
  - now apply IH.
  - now rewrite fold_turn_None.
Qed.
End ForLoop.

(** With a positive step the loop ends: [fuel] iterations are enough as
    soon as [fuel * step] covers what is left to the limit. *)
Lemma scan_total (limit step : number) (fuel : nat) :
  0 < step ->
  forall i : number,
    limit <= i + inject_Z (Z.of_nat fuel) * step ->
    exists xs, scan fuel i limit step = Some xs
               /\ Forall (fun x => i <= x /\ x < limit) xs.
Proof.
  intros Hstep. induction fuel as [|fuel IH]; intros i Hcover; cbn [scan];
    destruct (Qlt_le_dec i limit) as [Hlt|Hge];
    try (exists []; split; [reflexivity | constructor]).
  - exfalso. change (inject_Z (Z.of_nat 0)) with 0 in Hcover. lra.
  - destruct (IH (i + step)) as (xs & Hscan & Hall).
    { rewrite Nat2Z.inj_succ in Hcover. unfold Z.succ in Hcover.
      rewrite inject_Z_plus in Hcover. change (inject_Z 1) with 1 in Hcover.
      lra. }
    exists (i :: xs). rewrite Hscan. split; [reflexivity|].
    constructor; [split; [lra | exact Hlt]|].
    eapply Forall_impl; [|exact Hall]. cbn. intros x [Hx1 Hx2].
    split; [lra | exact Hx2].
Qed.

Lemma fuelFor_covers (limit step : number) (fuel : nat) :
  0 < step -> (fuelFor limit step <= fuel)%nat ->
  limit <= 0 + inject_Z (Z.of_nat fuel) * step.
Proof.
  intros Hstep Hfuel. unfold fuelFor in Hfuel.
  assert (Hceil : (Qceiling (limit / step) <= Z.of_nat fuel)%Z) by lia.
  rewrite Zle_Qle in Hceil.
  pose proof (Qle_ceiling (limit / step)) as Hle.
  assert (Hdiv : limit / step <= inject_Z (Z.of_nat fuel))
    by (eapply Qle_trans; eassumption).
  apply (Qmult_le_r _ _ step Hstep) in Hdiv.
  rewrite Qplus_0_l.
  assert (Hcancel : limit / step * step == limit)
    by (field; intros Hz; rewrite Hz in Hstep; discriminate).
  now rewrite Hcancel in Hdiv.
Qed.

Lemma scan_from_zero (limit step : number) (fuel : nat) :
  0 < step -> (fuelFor limit step <= fuel)%nat ->
  exists xs, scan fuel 0 limit step = Some xs
             /\ Forall (fun x => 0 <= x /\ x < limit) xs
             /\ (0 < limit -> exists rest, xs = 0 :: rest).
Proof.
  intros Hstep Hfuel.
  destruct (scan_total limit step fuel Hstep 0
              (fuelFor_covers limit step fuel Hstep Hfuel))
    as (xs & Hscan & Hall).
  exists xs. repeat split; try assumption.
  intros Hlimit. destruct fuel as [|fuel]; cbn in Hscan;
    destruct (Qlt_le_dec 0 limit) as [_|Hge]; try lra; try discriminate.
  destruct (scan fuel (0 + step) limit step) as [rest|]; [|discriminate].
  injection Hscan as <-. now exists rest.
Qed.

(** With a step that is not positive a loop that starts below its limit
    never ends. *)
Lemma scan_diverges (limit step : number) (fuel : nat) :
  step <= 0 -> forall i, i < limit -> scan fuel i limit step = None.
Proof.
  intros Hstep. induction fuel as [|fuel IH]; intros i Hlt; cbn;
    destruct (Qlt_le_dec i limit) as [_|Hge]; try lra; try reflexivity.
  rewrite IH by lra. reflexivity.
Qed.

End LoopFacts.

(** ** Facts about the renderer *)

Module RendererFacts.
Import JS Sampler Intensity Glyph Renderer.
Import JSFacts SamplerFacts IntensityFacts LoopFacts.
Local Open Scope Q_scope.

Section Cells.
Variable c : Component.
Variable imageData : list byte.
Variables scale detailBoost : number.

Lemma cellsFrom_app (l1 l2 : list (number * number)) :
  forall start : nat,
    cellsFrom c imageData scale start (l1 ++ l2)
    = cellsFrom c imageData scale start l1
      ++ cellsFrom c imageData scale (start + length l1) l2.
Proof.
  unfold cellsFrom.
  induction l1 as [|p l1 IH]; intros start; cbn [app length].
  - now rewrite Nat.add_0_r.
  - cbn [seq combine map app]. f_equal.
    rewrite IH. now rewrite Nat.add_succ_comm.
Qed.

Lemma cellsFrom_length (l : list (number * number)) (start : nat) :
  length (cellsFrom c imageData scale start l) = length l.
Proof.
  unfold cellsFrom.
  rewrite length_map, length_combine, length_seq. lia.
Qed.

(** Every painted cell is [mosaicCell] at one of the coordinates. *)
Lemma cellsFrom_Forall (P : MosaicCell -> Prop)
    (l : list (number * number)) (start : nat) :
  (forall x y i, In (x, y) l -> P (mosaicCell c imageData scale x y i)) ->
  Forall P (cellsFrom c imageData scale start l).
Proof.
  intros HP. unfold cellsFrom. apply Forall_forall.
  intros cell Hin. apply in_map_iff in Hin.
  destruct Hin as ([[x y] i] & <- & Hin).
  apply in_combine_l in Hin. now apply HP.
Qed.

(** The inner loop paints the cells of one row. *)
Lemma paintRow_cells (fuel : nat) (y : number) (xs : list number) :
  scan fuel 0 (baseWidth c scale) (stepX c scale detailBoost) = Some xs ->
  forall (ops : list DrawOp) (n : nat),
    paintRow fuel c imageData scale detailBoost y (ops, n)
    = Some (ops ++ map DrawGlyph
                     (cellsFrom c imageData scale n
                        (map (fun x => (x, y)) xs)),
            (n + length xs)%nat).
Proof.
  intros Hscan ops n. unfold paintRow.
  rewrite (forLoop_scan _ _ _ _ _ _ _ Hscan). clear Hscan.
  revert ops n. induction xs as [|x xs' IH]; intros ops n.
  - cbn. now rewrite app_nil_r, Nat.add_0_r.
  - cbn [fold_left turn]. unfold paintCell at 2. cbn [fst snd]. rewrite IH.
    cbn [map length]. unfold cellsFrom at 2.
    cbn [length seq combine map fst snd]. fold (cellsFrom c imageData scale (S n) (map (fun x0 => (x0, y)) xs')).
    f_equal. f_equal.
    + now rewrite <- app_assoc.
    + lia.
Qed.

(** The outer loop paints the grid row after row. *)
Lemma paintGrid_cells (fuel : nat) (xs ys : list number) :
  scan fuel 0 (baseWidth c scale) (stepX c scale detailBoost) = Some xs ->
  scan fuel 0 (baseHeight c scale) (stepY c scale detailBoost) = Some ys ->
  forall (ops : list DrawOp) (n : nat),
    paintGrid fuel c imageData scale detailBoost (ops, n)
    = Some (ops ++ map DrawGlyph
                     (cellsFrom c imageData scale n (gridCoords xs ys)),
            (n + length (gridCoords xs ys))%nat).
Proof.
  intros Hxs Hys ops n. unfold paintGrid.
  rewrite (forLoop_scan _ _ _ _ _ _ _ Hys). clear Hys.
  unfold gridCoords.
  revert ops n. induction ys as [|y ys' IH]; intros ops n.
  - cbn. now rewrite app_nil_r, Nat.add_0_r.
  - cbn [fold_left turn]. rewrite (paintRow_cells fuel y xs Hxs).
    rewrite IH. cbn [flat_map].
    rewrite cellsFrom_app, map_app, length_app, length_map.
    f_equal. f_equal.
    + now rewrite <- app_assoc.
    + lia.
Qed.
End Cells.

(** The glyph cells of a rendered canvas are those it had, then the
    cells of this render. *)
Lemma glyphs_app (ops ops' : list DrawOp) :
  glyphs (ops ++ ops') = glyphs ops ++ glyphs ops'.
Proof.
  induction ops as [|op ops IH]; [reflexivity|].
  destruct op; cbn [app glyphs]; rewrite IH; reflexivity.
Qed.

Lemma glyphs_rendered (c : Component) (cv : HTMLCanvasElement)
    (image : HTMLImageElement) (scale : number) (cells : list MosaicCell) :
  glyphs (painted (rendered c cv image scale cells))
  = glyphs (painted cv) ++ cells.
Proof.
  unfold rendered. cbn [withPainted painted].
  rewrite !glyphs_app. cbn [prelude glyphs app]. f_equal.
  induction cells as [|cell cells IH]; [reflexivity|].
  cbn [map glyphs]. now rewrite IH.
Qed.

(** A renderable call with enough fuel returns, having resized the
    canvas and painted the prelude and the grid of cells. *)
Lemma render_returns (fuel : nat) (c : Component) (cv : HTMLCanvasElement)
    (image : HTMLImageElement) (scale detailBoost : number) :
  Renderable c cv image scale detailBoost ->
  enoughFuel c scale detailBoost fuel ->
  exists xs ys,
    scan fuel 0 (baseWidth c scale) (stepX c scale detailBoost) = Some xs
    /\ scan fuel 0 (baseHeight c scale) (stepY c scale detailBoost) = Some ys
    /\ Forall (fun x => 0 <= x /\ x < baseWidth c scale) xs
    /\ Forall (fun y => 0 <= y /\ y < baseHeight c scale) ys
    /\ (0 < baseWidth c scale -> exists rest, xs = 0 :: rest)
    /\ (0 < baseHeight c scale -> exists rest, ys = 0 :: rest)
    /\ renderToCanvas fuel c (Some cv) scale detailBoost
       = Some (Returned (Some
           (rendered c cv image scale
              (cellsFrom c (pixelsAt image (baseWidth c scale)
                                     (baseHeight c scale))
                 scale 0 (gridCoords xs ys))))).
Proof.
  intros [Himg Hw Hh Hctx Htmp Hbw Hbh Hsx Hsy] [Hfx Hfy].
  destruct (scan_from_zero _ _ fuel Hsx Hfx) as (xs & Hxs & Hxall & Hx0).
  destruct (scan_from_zero _ _ fuel Hsy Hfy) as (ys & Hys & Hyall & Hy0).
  exists xs, ys. repeat split; try assumption.
  unfold renderToCanvas. rewrite Himg.
  unfold falsy.
  destruct (Z.eqb_spec (imageWidth c) 0) as [|_]; [contradiction|].
  destruct (Z.eqb_spec (imageHeight c) 0) as [|_]; [contradiction|].
  cbn [orb]. rewrite Hctx, Htmp. cbn [negb].
  destruct (Qeq_bool (baseWidth c scale) 0) eqn:Hzw;
    [apply Qeq_bool_iff in Hzw; contradiction|].
  destruct (Qeq_bool (baseHeight c scale) 0) eqn:Hzh;
    [apply Qeq_bool_iff in Hzh; contradiction|].
  cbn [orb].
  rewrite (paintGrid_cells c _ scale detailBoost fuel xs ys Hxs Hys).
  cbn [fst]. unfold rendered. now rewrite <- app_assoc.
Qed.

(** *** The sample session is renderable *)

Lemma graySession_renderable :
  Renderable graySession blankCanvas grayImage 1 0.7.
Proof.
  constructor; try reflexivity; try discriminate.
Qed.

Lemma graySession_fuel : enoughFuel graySession 1 0.7 100.
Proof.
  split; apply Nat.leb_le; vm_compute; reflexivity.
Qed.

(** *** Missing preconditions *)

(** C9: with no target canvas, no loaded image, or an image size whose
    width or height is zero, the render returns at once and normally:
    the canvas it was given is handed back as it was, nothing is
    painted and nothing is raised, whatever the fuel. *)
Theorem render_noop (fuel : nat) (c : Component)
    (canvas : option HTMLCanvasElement) (scale detailBoost : number) :
  canvas = None \/ imageRef c = None
  \/ imageWidth c = 0%Z \/ imageHeight c = 0%Z ->
  renderToCanvas fuel c canvas scale detailBoost = Some (Returned canvas).
Proof.
  intros Hmissing. unfold renderToCanvas.
  destruct canvas as [cv|]; [|reflexivity].
  destruct (imageRef c) as [image|]; [|reflexivity].
  destruct Hmissing as [Hcv | [Himg | [Hw | Hh]]]; try discriminate.
  - now rewrite Hw.
  - rewrite Hh. unfold falsy. now rewrite orb_true_r.
Qed.

Lemma render_noop_witness :
  (Some blankCanvas = None \/ imageRef initialSession = None
   \/ imageWidth initialSession = 0%Z \/ imageHeight initialSession = 0%Z)
  /\ renderToCanvas 0 initialSession (Some blankCanvas) 1 0.7
     = Some (Returned (Some blankCanvas)).
Proof.
  assert (Hmissing : Some blankCanvas = None \/ imageRef initialSession = None
                     \/ imageWidth initialSession = 0%Z
                     \/ imageHeight initialSession = 0%Z)
    by (right; left; reflexivity).
  split; [exact Hmissing|].
  exact (render_noop 0 initialSession (Some blankCanvas) 1 0.7 Hmissing).
Defined.

(** *** Surface dimensions *)

Lemma baseWidth_spec (c : Component) (scale : number) :
  baseWidth c scale = Spec.surfaceWidth (previewWidth c) scale.
Proof. reflexivity. Qed.

Lemma baseHeight_spec (c : Component) (scale : number) :
  baseHeight c scale
  = Spec.surfaceHeight (previewWidth c)
      (inject_Z (imageWidth c) / inject_Z (imageHeight c)) scale.
Proof. reflexivity. Qed.

Lemma baseWidth_integer_scale (c : Component) (k : Z) :
  baseWidth c (inject_Z k) = inject_Z (previewWidth c * k).
Proof.
  unfold baseWidth, Math_floor.
  now rewrite <- inject_Z_mult, Qfloor_Z.
Qed.

Lemma export_is_four_times (c : Component) :
  baseWidth c 4 == 4 * baseWidth c 1
  /\ baseHeight c 4 == 4 * baseHeight c 1.
Proof.
  split.
  - change (baseWidth c 4) with (baseWidth c (inject_Z 4)).
    change (baseWidth c 1) with (baseWidth c (inject_Z 1)).
    rewrite !baseWidth_integer_scale.
    change 4 with (inject_Z 4). rewrite <- inject_Z_mult.
    replace (4 * (previewWidth c * 1))%Z with (previewWidth c * 4)%Z by ring.
    reflexivity.
  - unfold baseHeight. ring.
Qed.

Lemma graySession_export_renderable :
  Renderable graySession blankCanvas grayImage 4 1.
Proof.
  constructor; try reflexivity; try discriminate.
Qed.

Lemma graySession_export_fuel : enoughFuel graySession 4 1 100.
Proof.
  split; apply Nat.leb_le; vm_compute; reflexivity.
Qed.

(** What a renderable call with enough fuel returns, without the
    detail of the grid. *)
Lemma render_result (fuel : nat) (c : Component) (cv : HTMLCanvasElement)
    (image : HTMLImageElement) (scale detailBoost : number) :
  Renderable c cv image scale detailBoost ->
  enoughFuel c scale detailBoost fuel ->
  exists cells,
    renderToCanvas fuel c (Some cv) scale detailBoost
    = Some (Returned (Some (rendered c cv image scale cells))).
Proof.
  intros Hr Hf.
  destruct (render_returns fuel c cv image scale detailBoost Hr Hf)
    as (xs & ys & _ & _ & _ & _ & _ & _ & Hrender).
  eexists. exact Hrender.
Qed.

(** Past the guard, whatever way the call ends, the canvas has been
    given the computed size. *)
Lemma render_sets_size (fuel : nat) (c : Component)
    (cv : HTMLCanvasElement) (scale detailBoost : number) (o : Outcome) :
  imageRef c <> None -> imageWidth c <> 0%Z -> imageHeight c <> 0%Z ->
  renderToCanvas fuel c (Some cv) scale detailBoost = Some o ->
  exists cv',
    (o = Returned (Some cv') \/ o = Raised (Some cv'))
    /\ width cv' = baseWidth c scale /\ height cv' = baseHeight c scale.
Proof.
  intros Himg Hw Hh. unfold renderToCanvas.
  destruct (imageRef c) as [image|]; [|contradiction].
  unfold falsy.
  destruct (Z.eqb_spec (imageWidth c) 0) as [|_]; [contradiction|].
  destruct (Z.eqb_spec (imageHeight c) 0) as [|_]; [contradiction|].
  cbn [orb].
  destruct (negb (context2d cv));
    [intros [= <-]; eexists; split; [left; reflexivity | now split]|].
  destruct (negb (tempContext2d c));
    [intros [= <-]; eexists; split; [left; reflexivity | now split]|].
  destruct (Qeq_bool (baseWidth c scale) 0 || Qeq_bool (baseHeight c scale) 0);
    [intros [= <-]; eexists; split; [right; reflexivity | now split]|].
  destruct (paintGrid fuel c _ scale detailBoost _) as [st|]; [|discriminate].
  intros [= <-]. eexists. split; [left; reflexivity | now split].
Qed.



(** *** The underlay *)

(** C3, as the code has it: every render that reaches the painting
    saves the context, sets the global alpha to the underlay setting,
    draws the source image over the whole surface and restores the
    context, after the background fill and before the first glyph;
    this holds for every value of the underlay, 0 included. *)
Theorem underlay_always_composited (fuel : nat) (c : Component)
    (cv : HTMLCanvasElement) (image : HTMLImageElement)
    (scale detailBoost : number) :
  Renderable c cv image scale detailBoost ->
  enoughFuel c scale detailBoost fuel ->
  let w := baseWidth c scale in
  let h := baseHeight c scale in
  exists cv' cells,
    renderToCanvas fuel c (Some cv) scale detailBoost
    = Some (Returned (Some cv'))
    /\ painted cv'
       = painted cv
         ++ [ClearRect 0 0 w h; SetFillStyle BACKGROUND; FillRect 0 0 w h]
         ++ [Save; SetGlobalAlpha (underlay (settings c));
             DrawImage image 0 0 w h; Restore]
         ++ SetTextBaseline TOP :: map DrawGlyph cells.
Proof.
  intros Hr Hf w h.
  destruct (render_result fuel c cv image scale detailBoost Hr Hf)
    as (cells & Hrender).
  exists (rendered c cv image scale cells), cells.
  split; [exact Hrender | reflexivity].
Qed.

Lemma underlay_always_composited_witness :
  exists cv' cells,
    renderToCanvas 100 graySession (Some blankCanvas) 1 0.7
    = Some (Returned (Some cv'))
    /\ painted cv'
       = painted blankCanvas
         ++ [ClearRect 0 0 (baseWidth graySession 1) (baseHeight graySession 1);
             SetFillStyle BACKGROUND;
             FillRect 0 0 (baseWidth graySession 1) (baseHeight graySession 1)]
         ++ [Save; SetGlobalAlpha (underlay (settings graySession));
             DrawImage grayImage 0 0
               (baseWidth graySession 1) (baseHeight graySession 1);
             Restore]
         ++ SetTextBaseline TOP :: map DrawGlyph cells.
Proof.
  exact (underlay_always_composited 100 graySession blankCanvas grayImage
           1 0.7 graySession_renderable graySession_fuel).
Defined.

(** The claim as the specification words it fails: with the underlay
    at 0 the image is composited all the same. *)
Lemma underlay_zero_still_composited :
  ~ 0 < underlay (settings graySession)
  /\ exists cv',
       renderToCanvas 100 graySession (Some blankCanvas) 1 0.7
       = Some (Returned (Some cv'))
       /\ In (DrawImage grayImage 0 0
                (baseWidth graySession 1) (baseHeight graySession 1))
             (painted cv').
Proof.
  split; [discriminate|].
  destruct (render_result 100 graySession blankCanvas grayImage 1 0.7
              graySession_renderable graySession_fuel) as (cells & Hrender).
  eexists. split; [exact Hrender|].
  cbn [rendered withPainted painted blankCanvas app prelude].
  cbn [In]. do 5 right. now left.
Qed.

(** *** Cell styling *)

(** C2: for every sampled colour [s], every contrast, font size and
    scale, the styling of the cell agrees with the formulas of the
    specification: luminance, contrasted luminance, intensity, weight,
    glyph size and alpha; the weight lies in [[300, 900]] and alpha in
    [[0.45, 1]].  The body of the loops styles, in this way, the
    colour it sampled, whose channels lie in [[0, 255]]. *)
Theorem cell_styling (c : Component) (scale : number) (s : Sample)
    (x y : number) (i : nat) :
  let cell := styleOf c scale s x y i in
  let lum := Spec.luminance (Q2R (red s)) (Q2R (green s)) (Q2R (blue s)) in
  let con := Spec.contrasted lum (Q2R (contrast (settings c))) in
  let I := Spec.intensity con in
  Q2R (luminance s) = lum
  /\ Q2R (cell_contrasted cell) = con
  /\ cell_intensity cell = I
  /\ cell_weight cell = Spec.weight I
  /\ cell_size cell
     = Spec.glyphSize (Q2R (fontSize (settings c))) (Q2R scale) I
  /\ ca (cell_fill cell) = Spec.alpha I
  /\ (300 <= cell_weight cell <= 900)%Z
  /\ (0.45 <= ca (cell_fill cell) <= 1)%R
  /\ forall imageData : list byte,
       let sampled :=
         sampleAt imageData (baseWidth c scale) (baseHeight c scale) x y in
       mosaicCell c imageData scale x y i = styleOf c scale sampled x y i
       /\ 0 <= red sampled <= 255 /\ 0 <= green sampled <= 255
       /\ 0 <= blue sampled <= 255.
Proof.
  cbv zeta. cbn [styleOf cell_sample cell_contrasted cell_intensity
                 cell_weight cell_size cell_fill].
  pose proof (intensity_range (contrast (settings c)) (luminance s)) as Hi.
  assert (Hint : intensity (contrasted (contrast (settings c)) (luminance s))
                 = Spec.intensity
                     (Spec.contrasted
                        (Spec.luminance (Q2R (red s)) (Q2R (green s))
                           (Q2R (blue s)))
                        (Q2R (contrast (settings c)))))
    by (rewrite intensity_spec; now rewrite Q2R_luminance).
  assert (Halpha : forall a,
             ca (fillStyle (monochrome (settings c)) s a) = a)
    by (intros a; unfold fillStyle; now destruct (monochrome (settings c))).
  split; [apply Q2R_luminance|].
  split; [rewrite Q2R_contrasted; now rewrite Q2R_luminance|].
  split; [exact Hint|].
  split; [now rewrite Hint|].
  split.
  { unfold size, Spec.glyphSize, scaledFont.
    now rewrite Q2R_mult, Hint. }
  split; [rewrite Halpha; now rewrite Hint|].
  split; [now apply weight_range|].
  split; [rewrite Halpha; now apply alpha_range|].
  intros imageData. split; [reflexivity | apply sampleAt_range].
Qed.

(** *** Monochrome *)

Lemma withMonochrome_renderable (c : Component) (cv : HTMLCanvasElement)
    (image : HTMLImageElement) (scale detailBoost : number) (m : bool) :
  Renderable c cv image scale detailBoost ->
  Renderable (withMonochrome c m) cv image scale detailBoost.
Proof.
  intros [Himg Hw Hh Hctx Htmp Hbw Hbh Hsx Hsy].
  constructor; assumption.
Qed.

Lemma Forall2_map_same {A B : Type} (P : B -> B -> Prop)
    (f g : A -> B) (l : list A) :
  (forall a, P (f a) (g a)) -> Forall2 P (map f l) (map g l).
Proof.
  intros HP. induction l as [|a l IH]; cbn; constructor; auto.
Qed.

(** The cells of the two renders at one place of the grid. *)
Lemma mosaicCell_monochrome (c : Component) (imageData : list byte)
    (scale x y : number) (i : nat) :
  let on := mosaicCell (withMonochrome c true) imageData scale x y i in
  let off := mosaicCell (withMonochrome c false) imageData scale x y i in
  cell_x on = cell_x off /\ cell_y on = cell_y off
  /\ cell_char on = cell_char off
  /\ cell_sample on = cell_sample off
  /\ cell_weight on = cell_weight off
  /\ cell_size on = cell_size off
  /\ ca (cell_fill on) = ca (cell_fill off)
  /\ (cr (cell_fill on), cg (cell_fill on), cb (cell_fill on))
     = (26, 26, 26)%Z
  /\ (cr (cell_fill off), cg (cell_fill off), cb (cell_fill off))
     = (Math_round (red (cell_sample off)),
        Math_round (green (cell_sample off)),
        Math_round (blue (cell_sample off))).
Proof.
  cbv zeta. unfold mosaicCell, styleOf.
  cbn [cell_x cell_y cell_char cell_sample cell_weight cell_size cell_fill
       withMonochrome settings monochrome fillStyle cr cg cb ca].
  repeat split; reflexivity.
Qed.

(** C6: two renders that differ in the monochrome setting alone paint
    the same cells one for one: same place, same glyph, same sampled
    colour, same weight, size and alpha.  The fill colour is
    (26, 26, 26) with monochrome set; without it, it is the sampled
    colour, each channel rounded. *)
Theorem monochrome_toggle (fuel : nat) (c : Component)
    (cv : HTMLCanvasElement) (image : HTMLImageElement)
    (scale detailBoost : number) :
  Renderable c cv image scale detailBoost ->
  enoughFuel c scale detailBoost fuel ->
  exists cellsOn cellsOff,
    renderToCanvas fuel (withMonochrome c true) (Some cv) scale detailBoost
    = Some (Returned (Some
        (rendered (withMonochrome c true) cv image scale cellsOn)))
    /\ renderToCanvas fuel (withMonochrome c false) (Some cv) scale
         detailBoost
       = Some (Returned (Some
           (rendered (withMonochrome c false) cv image scale cellsOff)))
    /\ Forall2
         (fun on off =>
            cell_x on = cell_x off /\ cell_y on = cell_y off
            /\ cell_char on = cell_char off
            /\ cell_sample on = cell_sample off
            /\ cell_weight on = cell_weight off
            /\ cell_size on = cell_size off
            /\ ca (cell_fill on) = ca (cell_fill off)
            /\ (cr (cell_fill on), cg (cell_fill on), cb (cell_fill on))
               = (26, 26, 26)%Z
            /\ (cr (cell_fill off), cg (cell_fill off), cb (cell_fill off))
               = (Math_round (red (cell_sample off)),
                  Math_round (green (cell_sample off)),
                  Math_round (blue (cell_sample off))))
         cellsOn cellsOff.
Proof.
  intros Hr Hf.
  destruct (render_returns fuel (withMonochrome c true) cv image scale
              detailBoost (withMonochrome_renderable c cv image scale
                             detailBoost true Hr) Hf)
    as (xs & ys & Hxs & Hys & _ & _ & _ & _ & Hon).
  destruct (render_returns fuel (withMonochrome c false) cv image scale
              detailBoost (withMonochrome_renderable c cv image scale
                             detailBoost false Hr) Hf)
    as (xs' & ys' & Hxs' & Hys' & _ & _ & _ & _ & Hoff).
  assert (Hsame : xs' = xs /\ ys' = ys).
  { split.
    - change (scan fuel 0 (baseWidth c scale) (stepX c scale detailBoost)
              = Some xs) in Hxs.
      change (scan fuel 0 (baseWidth c scale) (stepX c scale detailBoost)
              = Some xs') in Hxs'.
      congruence.
    - change (scan fuel 0 (baseHeight c scale) (stepY c scale detailBoost)
              = Some ys) in Hys.
      change (scan fuel 0 (baseHeight c scale) (stepY c scale detailBoost)
              = Some ys') in Hys'.
      congruence. }
  destruct Hsame as [-> ->].
  eexists. eexists. split; [exact Hon|]. split; [exact Hoff|].
  unfold cellsFrom.
  apply (Forall2_map_same _
           (fun p => mosaicCell (withMonochrome c true) _ scale
                       (fst (fst p)) (snd (fst p)) (snd p))
           (fun p => mosaicCell (withMonochrome c false) _ scale
                       (fst (fst p)) (snd (fst p)) (snd p))).
  intros p. apply mosaicCell_monochrome.
Qed.

Lemma monochrome_toggle_witness :
  exists cellsOn cellsOff,
    renderToCanvas 100 (withMonochrome graySession true) (Some blankCanvas)
      1 0.7
    = Some (Returned (Some
        (rendered (withMonochrome graySession true) blankCanvas grayImage 1
           cellsOn)))
    /\ renderToCanvas 100 (withMonochrome graySession false)
         (Some blankCanvas) 1 0.7
       = Some (Returned (Some
           (rendered (withMonochrome graySession false) blankCanvas
              grayImage 1 cellsOff)))
    /\ length cellsOn = length cellsOff.
Proof.
  destruct (monochrome_toggle 100 graySession blankCanvas grayImage 1 0.7
              graySession_renderable graySession_fuel)
    as (cellsOn & cellsOff & Hon & Hoff & Hall).
  exists cellsOn, cellsOff. split; [exact Hon|]. split; [exact Hoff|].
  exact (Forall2_length Hall).
Defined.

(** *** The gray example *)

Section GrayRender.
Variables (c : Component) (imageData : list byte) (scale : number).
Variables w h : Z.
Hypothesis Hw : (1 <= w)%Z.
Hypothesis Hh : (1 <= h)%Z.
Hypothesis Hbw : baseWidth c scale == inject_Z w.
Hypothesis Hbh : baseHeight c scale == inject_Z h.
Hypothesis Hlen : length imageData = Z.to_nat (4 * w * h).
Hypothesis Hgray : uniformGray imageData.
Hypothesis Hcontrast : contrast (settings c) == 1.

(** Every cell over a uniformly gray buffer. *)
Lemma gray_cell (x y : number) (i : nat) :
  let cell := mosaicCell c imageData scale x y i in
  cell_contrasted cell == 128
  /\ (0.6356 < cell_intensity cell < 0.6357)%R
  /\ cell_weight cell = 681%Z
  /\ (0.7995 < ca (cell_fill cell) < 0.7997)%R.
Proof.
  cbv zeta.
  unfold mosaicCell.
  cbn [styleOf cell_contrasted cell_intensity cell_weight cell_fill].
  rewrite (sampleAt_comp imageData _ _ _ _ x y Hbw Hbh).
  rewrite (gray_sample imageData w h Hw Hh Hlen Hgray x y).
  set (s := {| red := (128 + 128) / 2; green := (128 + 128) / 2;
               blue := (128 + 128) / 2 |}).
  assert (Hcon : contrasted (contrast (settings c)) (luminance s) == 128).
  { unfold contrasted, clamp, Math_min, Math_max.
    rewrite Hcontrast. reflexivity. }
  destruct (gray_styling _ Hcon) as (Hi & Hweight & Halpha).
  repeat split; try assumption; try apply Hi;
    unfold fillStyle; destruct (monochrome (settings c)); apply Halpha.
Qed.

Lemma gray_cell_matches (x y : number) (i : nat) :
  Spec.matches 0.01 128 0.6357 681 0.7996
    (mosaicCell c imageData scale x y i).
Proof.
  destruct (gray_cell x y i) as (Hcon & Hi & Hweight & Halpha).
  unfold Spec.matches. rewrite Hweight, (Qeq_eqR _ _ Hcon).
  repeat split; apply Rabs_le; lra.
Qed.
End GrayRender.

(** A render of a uniformly gray buffer paints at least one cell, and
    every cell it paints has the styling of [gray_cell]. *)
Lemma gray_render (fuel : nat) (c : Component) (cv : HTMLCanvasElement)
    (image : HTMLImageElement) (scale detailBoost : number) (w h : Z) :
  Renderable c cv image scale detailBoost ->
  enoughFuel c scale detailBoost fuel ->
  contrast (settings c) == 1 ->
  (1 <= w)%Z -> (1 <= h)%Z ->
  baseWidth c scale == inject_Z w -> baseHeight c scale == inject_Z h ->
  length (pixelsAt image (baseWidth c scale) (baseHeight c scale))
  = Z.to_nat (4 * w * h) ->
  uniformGray (pixelsAt image (baseWidth c scale) (baseHeight c scale)) ->
  exists cell cells,
    renderToCanvas fuel c (Some cv) scale detailBoost
    = Some (Returned (Some (rendered c cv image scale (cell :: cells))))
    /\ Forall (fun cell =>
                 cell_contrasted cell == 128
                 /\ (0.6356 < cell_intensity cell < 0.6357)%R
                 /\ cell_weight cell = 681%Z
                 /\ (0.7995 < ca (cell_fill cell) < 0.7997)%R)
              (cell :: cells)
    /\ Forall (Spec.matches 0.01 128 0.6357 681 0.7996) (cell :: cells).
Proof.
  intros Hr Hf Hcontrast Hw Hh Hbw Hbh Hlen Hgray.
  destruct (render_returns fuel c cv image scale detailBoost Hr Hf)
    as (xs & ys & _ & _ & _ & _ & Hx0 & Hy0 & Hrender).
  destruct Hx0 as [xs' ->];
    [rewrite Hbw; change 0 with (inject_Z 0); rewrite <- Zlt_Qlt; lia|].
  destruct Hy0 as [ys' ->];
    [rewrite Hbh; change 0 with (inject_Z 0); rewrite <- Zlt_Qlt; lia|].
  set (data := pixelsAt image (baseWidth c scale) (baseHeight c scale)) in *.
  assert (Hcells : exists cell cells,
             cellsFrom c data scale 0 (gridCoords (0 :: xs') (0 :: ys'))
             = cell :: cells).
  { unfold cellsFrom, gridCoords. cbn [flat_map map app length seq combine].
    eexists. eexists. reflexivity. }
  destruct Hcells as (cell & cells & Hcells).
  exists cell, cells. rewrite <- Hcells.
  split; [exact Hrender|].
  split; apply cellsFrom_Forall; intros x y i _.
  - now apply (gray_cell c data scale w h).
  - now apply (gray_cell_matches c data scale w h).
Qed.

(** C1, with the values the formulas give: for the 100 by 100 image of
    uniform gray (128, 128, 128), contrast 1 and underlay 0, on a
    surface of integer dimensions, the render paints cells, and every
    cell has contrasted luminance 128, intensity
    [(1 - 128/255) ^ 0.65], which is 0.6357, weight 681 and alpha 0.7996,
    each within 0.01. *)
Theorem gray_example (fuel : nat) (c : Component) (cv : HTMLCanvasElement)
    (image : HTMLImageElement) (scale detailBoost : number) (w h : Z) :
  Renderable c cv image scale detailBoost ->
  enoughFuel c scale detailBoost fuel ->
  imageWidth c = 100%Z -> imageHeight c = 100%Z ->
  contrast (settings c) == 1 -> underlay (settings c) == 0 ->
  (1 <= w)%Z -> (1 <= h)%Z ->
  baseWidth c scale == inject_Z w -> baseHeight c scale == inject_Z h ->
  length (pixelsAt image (baseWidth c scale) (baseHeight c scale))
  = Z.to_nat (4 * w * h) ->
  uniformGray (pixelsAt image (baseWidth c scale) (baseHeight c scale)) ->
  exists cell cells,
    renderToCanvas fuel c (Some cv) scale detailBoost
    = Some (Returned (Some (rendered c cv image scale (cell :: cells))))
    /\ Forall (Spec.matches 0.01 128 0.6357 681 0.7996) (cell :: cells).
Proof.
  intros Hr Hf _ _ Hcontrast _ Hw Hh Hbw Hbh Hlen Hgray.
  destruct (gray_render fuel c cv image scale detailBoost w h
              Hr Hf Hcontrast Hw Hh Hbw Hbh Hlen Hgray)
    as (cell & cells & Hrender & _ & Hall).
  now exists cell, cells.
Qed.

Lemma graySession_buffer :
  length (pixelsAt grayImage (baseWidth graySession 1)
            (baseHeight graySession 1))
  = Z.to_nat (4 * 720 * 720)
  /\ uniformGray (pixelsAt grayImage (baseWidth graySession 1)
                    (baseHeight graySession 1)).
Proof.
  cbn [pixelsAt grayImage]. split; [|apply grayBuffer_uniform].
  rewrite grayBuffer_length.
  replace (Qfloor (baseWidth graySession 1 * baseHeight graySession 1))
    with 518400%Z by (vm_compute; reflexivity).
  lia.
Qed.

Lemma gray_example_witness :
  exists cell cells,
    renderToCanvas 100 graySession (Some blankCanvas) 1 0.7
    = Some (Returned (Some
        (rendered graySession blankCanvas grayImage 1 (cell :: cells))))
    /\ Forall (Spec.matches 0.01 128 0.6357 681 0.7996) (cell :: cells).
Proof.
  refine (gray_example 100 graySession blankCanvas grayImage 1 0.7 720 720
            graySession_renderable graySession_fuel eq_refl eq_refl
            _ _ _ _ _ _
            (proj1 graySession_buffer) (proj2 graySession_buffer));
    [reflexivity | reflexivity | lia | lia | reflexivity | reflexivity].
Defined.

(** The values of the specification's example do not match: in the
    sample session a painted cell has an intensity, a weight and an
    alpha that are all further than 0.01 from 0.706, 724 and 0.838. *)
Lemma gray_example_spec_values_fail :
  exists cell cells,
    renderToCanvas 100 graySession (Some blankCanvas) 1 0.7
    = Some (Returned (Some
        (rendered graySession blankCanvas grayImage 1 (cell :: cells))))
    /\ ~ Spec.matches 0.01 128 0.706 724 0.838 cell
    /\ ~ (Rabs (cell_intensity cell - 0.706) <= 0.01)%R
    /\ ~ (Rabs (IZR (cell_weight cell) - 724) <= 0.01)%R
    /\ ~ (Rabs (ca (cell_fill cell) - 0.838) <= 0.01)%R.
Proof.
  assert (Hone : contrast (settings graySession) == 1) by reflexivity.
  assert (Hbw : baseWidth graySession 1 == inject_Z 720) by reflexivity.
  assert (Hbh : baseHeight graySession 1 == inject_Z 720) by reflexivity.
  destruct (gray_render 100 graySession blankCanvas grayImage 1 0.7 720 720
              graySession_renderable graySession_fuel Hone
              ltac:(lia) ltac:(lia) Hbw Hbh
              (proj1 graySession_buffer) (proj2 graySession_buffer))
    as (cell & cells & Hrender & Hall & _).
  exists cell, cells. split; [exact Hrender|].
  apply Forall_inv in Hall. destruct Hall as (_ & Hi & Hweight & Halpha).
  assert (Hnot : ~ (Rabs (cell_intensity cell - 0.706) <= 0.01)%R).
  { intros Habs. apply Rabs_le_inv in Habs. lra. }
  split; [intros (_ & Habs & _); now apply Hnot|].
  split; [exact Hnot|]. split.
  - rewrite Hweight. intros Habs. apply Rabs_le_inv in Habs. lra.
  - intros Habs. apply Rabs_le_inv in Habs. lra.
Qed.

End RendererFacts.

(** * Further properties of the code *)

(** ** The glyph stream (lines 41-44 and 143-144) *)

Module StreamFacts.
Import Glyph Shape GlyphFacts.

Lemma replaceRuns_collapsed (s : jsstring) :
  forall inRun, collapsedFrom inRun (replaceRuns inRun s) = true.
Proof.
  induction s as [|c rest IH]; intros inRun; cbn [replaceRuns];
    [reflexivity|].
  destruct (isWhiteSpace c) eqn:Hc.
  - destruct inRun; [apply IH|].
    cbn [collapsedFrom]. change (isWhiteSpace SPACE) with true.
    cbn. apply IH.
  - cbn [collapsedFrom]. rewrite Hc. apply IH.
Qed.

Lemma collapsed_tail (inRun : bool) (c : codeunit) (rest : jsstring) :
  collapsedFrom inRun (c :: rest) = true ->
  collapsedFrom (isWhiteSpace c) rest = true.
Proof.
  cbn [collapsedFrom]. destruct (isWhiteSpace c); [|easy].
  intros H. apply andb_prop in H. tauto.
Qed.

Lemma collapsed_weaken (inRun : bool) (s : jsstring) :
  collapsedFrom inRun s = true -> collapsedFrom false s = true.
Proof.
  destruct s as [|c rest]; [easy|]. cbn [collapsedFrom].
  destruct (isWhiteSpace c); [|easy].
  intros H. apply andb_prop in H. destruct H as [H Hrest].
  apply andb_prop in H. destruct H as [Hc _].
  now rewrite Hc, Hrest.
Qed.

Lemma collapsed_prefix (s t : jsstring) :
  forall inRun,
    collapsedFrom inRun (s ++ t) = true -> collapsedFrom inRun s = true.
Proof.
  induction s as [|c rest IH]; intros inRun; [easy|].
  cbn [app collapsedFrom]. destruct (isWhiteSpace c).
  - intros H. apply andb_prop in H. destruct H as [H Hrest].
    rewrite H. now apply IH.
  - apply IH.
Qed.

Lemma trimStart_collapsed (s : jsstring) :
  forall inRun,
    collapsedFrom inRun s = true -> collapsedFrom false (trimStart s) = true.
Proof.
  induction s as [|c rest IH]; intros inRun Hs; [reflexivity|].
  cbn [trimStart]. destruct (isWhiteSpace c) eqn:Hc.
  - apply (IH true). apply collapsed_tail in Hs. now rewrite Hc in Hs.
  - now apply collapsed_weaken in Hs.
Qed.

(** [trimEnd] drops the trailing whitespace, one code unit at a time. *)
Lemma trimEnd_snoc (s : jsstring) (c : codeunit) :
  trimEnd (s ++ [c]) = if isWhiteSpace c then trimEnd s else s ++ [c].
Proof.
  unfold trimEnd. rewrite rev_unit. cbn [trimStart].
  destruct (isWhiteSpace c); [reflexivity|].
  cbn [rev]. now rewrite rev_involutive.
Qed.

Lemma trimEnd_prefix (s : jsstring) : exists t, s = trimEnd s ++ t.
Proof.
  induction s as [|c s IH] using rev_ind; [now exists []|].
  rewrite trimEnd_snoc. destruct (isWhiteSpace c).
  - destruct IH as [t Ht]. exists (t ++ [c]).
    rewrite app_assoc. now rewrite <- Ht.
  - exists []. now rewrite app_nil_r.
Qed.

Lemma trimEnd_collapsed (inRun : bool) (s : jsstring) :
  collapsedFrom inRun s = true -> collapsedFrom inRun (trimEnd s) = true.
Proof.
  intros Hs. destruct (trimEnd_prefix s) as [t Ht].
  rewrite Ht in Hs. now apply collapsed_prefix in Hs.
Qed.

Lemma sanitize_collapsed (lyrics : jsstring) :
  collapsedFrom false (sanitize lyrics) = true.
Proof.
  unfold sanitize, trim.
  apply trimEnd_collapsed, (trimStart_collapsed _ false),
    replaceRuns_collapsed.
Qed.

Lemma trimStart_head (s : jsstring) (c : codeunit) (rest : jsstring) :
  trimStart s = c :: rest -> isWhiteSpace c = false.
Proof.
  induction s as [|d s IH]; [discriminate|]. cbn [trimStart].
  destruct (isWhiteSpace d) eqn:Hd; [exact IH|].
  now intros [= <- _].
Qed.

Lemma trimEnd_last (s front : jsstring) (c : codeunit) :
  trimEnd s = front ++ [c] -> isWhiteSpace c = false.
Proof.
  unfold trimEnd. intros H.
  apply (f_equal (@rev codeunit)) in H.
  rewrite rev_involutive, rev_unit in H.
  now apply trimStart_head in H.
Qed.

Lemma sanitize_head (lyrics : jsstring) (c : codeunit) (rest : jsstring) :
  sanitize lyrics = c :: rest -> isWhiteSpace c = false.
Proof.
  unfold sanitize, trim. intros H.
  destruct (trimEnd_prefix (trimStart (replaceRuns false lyrics)))
    as [t Ht].
  rewrite H in Ht. cbn [app] in Ht. now apply trimStart_head in Ht.
Qed.

Lemma collapsed_spaces (s : jsstring) :
  forall inRun,
    collapsedFrom inRun s = true ->
    Forall (fun c => isWhiteSpace c = true -> c = SPACE) s.
Proof.
  induction s as [|c rest IH]; intros inRun Hs; constructor.
  - cbn [collapsedFrom] in Hs. intros Hc. rewrite Hc in Hs.
    apply andb_prop in Hs. destruct Hs as [Hs _].
    apply andb_prop in Hs. destruct Hs as [Hs _].
    now apply N.eqb_eq in Hs.
  - apply (IH (isWhiteSpace c)). now apply collapsed_tail in Hs.
Qed.

Lemma collapsed_no_double (front : jsstring) :
  forall (inRun : bool) (s back : jsstring),
    collapsedFrom inRun s = true -> s <> front ++ SPACE :: SPACE :: back.
Proof.
  induction front as [|a front IH]; intros inRun s back Hs Heq; subst s.
  - cbn [app] in Hs. apply collapsed_tail in Hs.
    change (isWhiteSpace SPACE) with true in Hs.
    cbn [collapsedFrom] in Hs. change (isWhiteSpace SPACE) with true in Hs.
    cbn in Hs. discriminate.
  - cbn [app] in Hs. apply collapsed_tail in Hs.
    now apply (IH _ _ back Hs).
Qed.

(** X1 (lines 41-44): the sanitized text is in normal form.  Its only
    whitespace is the space, no space follows a space, and it neither
    starts nor ends with whitespace. *)
Theorem sanitize_normal_form (lyrics : jsstring) :
  let s := sanitize lyrics in
  Forall (fun c => isWhiteSpace c = true -> c = SPACE) s
  /\ (forall front back, s <> front ++ SPACE :: SPACE :: back)
  /\ (forall c rest, s = c :: rest -> isWhiteSpace c = false)
  /\ (forall front c, s = front ++ [c] -> isWhiteSpace c = false).
Proof.
  cbv zeta. pose proof (sanitize_collapsed lyrics) as Hs.
  split; [now apply (collapsed_spaces _ false)|].
  split; [intros front back; now apply (collapsed_no_double front false)|].
  split; [apply sanitize_head|].
  intros front c. unfold sanitize, trim. apply trimEnd_last.
Qed.

Lemma collapsed_fixed (s : jsstring) :
  forall inRun, collapsedFrom inRun s = true -> replaceRuns inRun s = s.
Proof.
  induction s as [|c rest IH]; intros inRun Hs; [reflexivity|].
  pose proof (collapsed_tail _ _ _ Hs) as Hrest.
  cbn [collapsedFrom replaceRuns] in *.
  destruct (isWhiteSpace c).
  - apply andb_prop in Hs. destruct Hs as [Hs _].
    apply andb_prop in Hs. destruct Hs as [Hc Hrun].
    apply N.eqb_eq in Hc. subst c.
    destruct inRun; [discriminate|]. now rewrite IH.
  - now rewrite IH.
Qed.

Lemma trim_fixed (s : jsstring) :
  (forall c rest, s = c :: rest -> isWhiteSpace c = false) ->
  (forall front c, s = front ++ [c] -> isWhiteSpace c = false) ->
  trim s = s.
Proof.
  intros Hhead Hlast. unfold trim.
  assert (Hstart : trimStart s = s).
  { destruct s as [|c rest]; [reflexivity|]. cbn [trimStart].
    now rewrite (Hhead c rest eq_refl). }
  rewrite Hstart.
  destruct s as [|c s _] using rev_ind; [reflexivity|].
  rewrite trimEnd_snoc. now rewrite (Hlast s c eq_refl).
Qed.

Lemma sanitize_fixed (lyrics : jsstring) :
  sanitize (sanitize lyrics) = sanitize lyrics.
Proof.
  unfold sanitize at 1.
  rewrite (collapsed_fixed _ false (sanitize_collapsed lyrics)).
  apply trim_fixed.
  - apply sanitize_head.
  - intros front c. unfold sanitize, trim. apply trimEnd_last.
Qed.

(** X2 (lines 41-44): sanitizing is idempotent, and so is the whole
    stream construction: the stream of a stream is that stream. *)
Theorem textCharacters_idempotent (lyrics : jsstring) :
  sanitize (sanitize lyrics) = sanitize lyrics
  /\ textCharacters (textCharacters lyrics) = textCharacters lyrics.
Proof.
  split; [apply sanitize_fixed|].
  unfold textCharacters at 2 3.
  destruct (0 <? length (sanitize lyrics))%nat eqn:Hlen.
  - unfold textCharacters. rewrite sanitize_fixed. now rewrite Hlen.
  - reflexivity.
Qed.

Lemma visible_replaceRuns (s : jsstring) :
  forall inRun, visible (replaceRuns inRun s) = visible s.
Proof.
  unfold visible.
  induction s as [|c rest IH]; intros inRun; [reflexivity|].
  cbn [replaceRuns filter]. destruct (isWhiteSpace c) eqn:Hc; cbn [negb].
  - destruct inRun; [apply IH|]. cbn [filter].
    change (isWhiteSpace SPACE) with true. cbn [negb]. apply IH.
  - cbn [filter]. rewrite Hc. cbn [negb]. f_equal. apply IH.
Qed.

Lemma visible_trimStart (s : jsstring) : visible (trimStart s) = visible s.
Proof.
  unfold visible. induction s as [|c rest IH]; [reflexivity|].
  cbn [trimStart filter]. destruct (isWhiteSpace c) eqn:Hc; cbn [negb].
  - exact IH.
  - cbn [filter]. now rewrite Hc.
Qed.

Lemma visible_rev (s : jsstring) : visible (rev s) = rev (visible s).
Proof.
  unfold visible. induction s as [|c rest IH]; [reflexivity|].
  cbn [rev filter]. rewrite filter_app, IH. cbn [filter].
  destruct (negb (isWhiteSpace c)); [reflexivity|].
  now rewrite app_nil_r.
Qed.

Lemma visible_sanitize (lyrics : jsstring) :
  visible (sanitize lyrics) = visible lyrics.
Proof.
  unfold sanitize, trim, trimEnd.
  rewrite visible_rev, visible_trimStart, visible_rev, rev_involutive.
  rewrite visible_trimStart. apply visible_replaceRuns.
Qed.

(** X3 (lines 41-44): the stream keeps every code unit that is not
    whitespace, in order and without adding any.  The placeholder stands
    in exactly for the texts without such a code unit. *)
Theorem stream_keeps_visible_text (lyrics : jsstring) :
  visible (sanitize lyrics) = visible lyrics
  /\ (visible lyrics <> [] ->
      textCharacters lyrics = sanitize lyrics
      /\ visible (textCharacters lyrics) = visible lyrics)
  /\ (visible lyrics = [] -> textCharacters lyrics = [BULLET]).
Proof.
  pose proof (visible_sanitize lyrics) as Hvis.
  split; [exact Hvis|].
  unfold textCharacters. split.
  - intros Hsome.
    destruct (sanitize lyrics) as [|c rest] eqn:Hs.
    + cbn in Hvis. now rewrite <- Hvis in Hsome.
    + cbn [length Nat.ltb Nat.leb]. now split.
  - intros Hnone.
    destruct (sanitize lyrics) as [|c rest] eqn:Hs; [reflexivity|].
    pose proof (sanitize_head lyrics c rest Hs) as Hc.
    rewrite Hnone in Hvis. unfold visible in Hvis. cbn [filter] in Hvis.
    rewrite Hc in Hvis. discriminate.
Qed.

Lemma stream_keeps_visible_text_witness :
  visible [32%N; 76%N; 10%N; 10%N; 97%N] <> []
  /\ textCharacters [32%N; 76%N; 10%N; 10%N; 97%N] = [76%N; 32%N; 97%N].
Proof.
  assert (Hvis : visible [32%N; 76%N; 10%N; 10%N; 97%N] <> [])
    by discriminate.
  split; [exact Hvis|].
  destruct (stream_keeps_visible_text [32%N; 76%N; 10%N; 10%N; 97%N])
    as (_ & Hsome & _).
  destruct (Hsome Hvis) as [Hstream _]. rewrite Hstream. reflexivity.
Defined.

(** X4 (lines 41-44, 143-144): the stream never holds a newline, so the
    replacement of a newline by a space is never applied: every glyph
    drawn is the code unit of the stream at [charIndex mod length]. *)
Theorem newline_branch_never_taken (lyrics : jsstring) (charIndex : nat) :
  let stream := textCharacters lyrics in
  ~ In LF stream
  /\ glyphAt stream charIndex
     = nth_error stream (charIndex mod length stream)%nat
  /\ glyphAt stream charIndex <> None.
Proof.
  cbv zeta. pose proof (textCharacters_no_LF lyrics) as Hno.
  split; [exact Hno|].
  destruct (glyphAt_defined (textCharacters lyrics) charIndex
              (textCharacters_length lyrics)) as (c & Hnth & Hat).
  rewrite Hat, Hnth. split; [|discriminate].
  f_equal. unfold safeChar.
  destruct (N.eqb_spec c LF) as [->|_]; [|reflexivity].
  exfalso. apply Hno. now apply nth_error_In in Hnth.
Qed.

End StreamFacts.

(** ** The traversal (lines 100-108 and 143-146) *)

Module GridFacts.
Import JS Sampler Intensity Glyph Renderer Grid.
Import JSFacts SamplerFacts LoopFacts RendererFacts GlyphFacts.
Local Open Scope Q_scope.

(** *** Loops that end and loops that do not *)

Lemma forLoop_diverges {St : Type} (limit step : number)
    (body : number -> St -> option St) (fuel : nat) :
  step <= 0 ->
  forall (i : number) (st : St),
    i < limit -> forLoop fuel i limit step body st = None.
Proof.
  intros Hstep. induction fuel as [|fuel IH]; intros i st Hlt;
    cbn [forLoop]; destruct (Qlt_le_dec i limit) as [_|Hge];
    try reflexivity; try lra.
  destruct (body i st) as [st'|]; [|reflexivity].
  apply IH. lra.
Qed.

Lemma scan_more_fuel (limit step : number) (fuel : nat) :
  forall (i : number) (xs : list number) (fuel' : nat),
    scan fuel i limit step = Some xs -> (fuel <= fuel')%nat ->
    scan fuel' i limit step = Some xs.
Proof.
  induction fuel as [|fuel IH]; intros i xs fuel' Hscan Hle;
    cbn [scan] in Hscan.
  - destruct fuel'; cbn [scan];
      destruct (Qlt_le_dec i limit); congruence.
  - destruct fuel' as [|fuel']; [lia|]. cbn [scan].
    destruct (Qlt_le_dec i limit); [|exact Hscan].
    destruct (scan fuel (i + step) limit step) as [xs'|] eqn:Hrest;
      [|discriminate].
    rewrite (IH _ _ fuel' Hrest) by lia. exact Hscan.
Qed.

Lemma detailFactor_range (detailBoost : number) :
  0.5 <= detailFactor detailBoost <= 1.
Proof.
  unfold detailFactor, Math_max, Math_min.
  destruct (Q.min_spec detailBoost 1) as [[Hlt Hmin] | [Hle Hmin]];
    destruct (Q.max_spec 0.5 (Qmin detailBoost 1))
      as [[Hlt' Hmax] | [Hle' Hmax]];
    rewrite Hmax; try rewrite Hmin; rewrite ?Hmin in *; split; lra.
Qed.

Lemma steps_positive (c : Component) (scale detailBoost : number) :
  0 < fontSize (settings c) -> 0 < spacing (settings c) -> 0 < scale ->
  0 < stepX c scale detailBoost /\ 0 < stepY c scale detailBoost.
Proof.
  intros Hf Hs Hk.
  pose proof (detailFactor_range detailBoost) as [Hd _].
  assert (Hsf : 0 < scaledFont c scale * spacing (settings c))
    by (unfold scaledFont; repeat apply Qmult_lt_0_compat; assumption).
  unfold stepX, stepY. split.
  - apply Qmult_lt_0_compat; [exact Hsf | lra].
  - apply Qmult_lt_0_compat; [|lra].
    apply Qmult_lt_0_compat; [exact Hsf | reflexivity].
Qed.

(** X5 (lines 100-108): with a positive font size, spacing and scale
    the loops end.  A call that passes the guard, has its contexts and
    a surface that is not empty returns normally with every fuel from
    some bound on, and with the same painted cells. *)
Theorem render_terminates (c : Component) (cv : HTMLCanvasElement)
    (image : HTMLImageElement) (scale detailBoost : number) :
  imageRef c = Some image ->
  imageWidth c <> 0%Z -> imageHeight c <> 0%Z ->
  context2d cv = true -> tempContext2d c = true ->
  ~ baseWidth c scale == 0 -> ~ baseHeight c scale == 0 ->
  0 < fontSize (settings c) -> 0 < spacing (settings c) -> 0 < scale ->
  exists (bound : nat) (cells : list MosaicCell),
    forall fuel : nat,
      (bound <= fuel)%nat ->
      renderToCanvas fuel c (Some cv) scale detailBoost
      = Some (Returned (Some (rendered c cv image scale cells))).
Proof.
  intros Himg Hw Hh Hctx Htmp Hbw Hbh Hf Hs Hk.
  destruct (steps_positive c scale detailBoost Hf Hs Hk) as [Hsx Hsy].
  assert (Hr : Renderable c cv image scale detailBoost)
    by (constructor; assumption).
  set (bound := Nat.max
                  (fuelFor (baseWidth c scale) (stepX c scale detailBoost))
                  (fuelFor (baseHeight c scale) (stepY c scale detailBoost))).
  assert (Hbound : enoughFuel c scale detailBoost bound)
    by (unfold enoughFuel, bound; lia).
  destruct (render_returns bound c cv image scale detailBoost Hr Hbound)
    as (xs & ys & Hxs & Hys & _).
  exists bound, (cellsFrom c (pixelsAt image (baseWidth c scale)
                                      (baseHeight c scale))
                   scale 0 (gridCoords xs ys)).
  intros fuel Hfuel.
  assert (Hf' : enoughFuel c scale detailBoost fuel)
    by (unfold enoughFuel, bound in *; lia).
  destruct (render_returns fuel c cv image scale detailBoost Hr Hf')
    as (xs' & ys' & Hxs' & Hys' & _ & _ & _ & _ & Hrender).
  rewrite (scan_more_fuel _ _ _ _ _ fuel Hxs Hfuel) in Hxs'.
  rewrite (scan_more_fuel _ _ _ _ _ fuel Hys Hfuel) in Hys'.
  injection Hxs' as <-. injection Hys' as <-. exact Hrender.
Qed.

Lemma render_terminates_witness :
  exists (bound : nat) (cells : list MosaicCell),
    forall fuel : nat,
      (bound <= fuel)%nat ->
      renderToCanvas fuel graySession (Some blankCanvas) 4 1
      = Some (Returned (Some
          (rendered graySession blankCanvas grayImage 4 cells))).
Proof.
  apply (render_terminates graySession blankCanvas grayImage 4 1);
    try reflexivity; discriminate.
Defined.

(** X6 (lines 100-108): without a positive step the render never
    returns.  When font size times scale times spacing is zero or
    negative and the surface has a positive width and height, the inner
    loop never leaves its first row: the call has no result, whatever
    the fuel. *)
Theorem render_never_returns (c : Component) (cv : HTMLCanvasElement)
    (image : HTMLImageElement) (scale detailBoost : number) (fuel : nat) :
  imageRef c = Some image ->
  imageWidth c <> 0%Z -> imageHeight c <> 0%Z ->
  context2d cv = true -> tempContext2d c = true ->
  0 < baseWidth c scale -> 0 < baseHeight c scale ->
  scaledFont c scale * spacing (settings c) <= 0 ->
  renderToCanvas fuel c (Some cv) scale detailBoost = None.
Proof.
  intros Himg Hw Hh Hctx Htmp Hbw Hbh Hzero.
  pose proof (detailFactor_range detailBoost) as [Hd _].
  assert (Hsx : stepX c scale detailBoost <= 0).
  { unfold stepX.
    setoid_replace 0 with (0 * detailFactor detailBoost) by ring.
    apply Qmult_le_compat_r; [exact Hzero | lra]. }
  unfold renderToCanvas. rewrite Himg. unfold falsy.
  destruct (Z.eqb_spec (imageWidth c) 0) as [|_]; [contradiction|].
  destruct (Z.eqb_spec (imageHeight c) 0) as [|_]; [contradiction|].
  cbn [orb]. rewrite Hctx, Htmp. cbn [negb].
  destruct (Qeq_bool (baseWidth c scale) 0) eqn:Hzw;
    [apply Qeq_bool_iff in Hzw; rewrite Hzw in Hbw; discriminate|].
  destruct (Qeq_bool (baseHeight c scale) 0) eqn:Hzh;
    [apply Qeq_bool_iff in Hzh; rewrite Hzh in Hbh; discriminate|].
  cbn [orb].
  assert (Hgrid : forall st,
             paintGrid fuel c (pixelsAt image (baseWidth c scale)
                                        (baseHeight c scale))
               scale detailBoost st = None).
  { intros st. unfold paintGrid. destruct fuel as [|fuel]; cbn [forLoop];
      destruct (Qlt_le_dec 0 (baseHeight c scale)) as [_|Hge];
      try reflexivity; try lra.
    unfold paintRow at 1.
    now rewrite (forLoop_diverges _ _ _ (S fuel) Hsx 0 st Hbw). }
  now rewrite Hgrid.
Qed.

Lemma render_never_returns_witness :
  let c := withMonochrome graySession true in
  let frozen :=
    {| imageRef := imageRef c; imageWidth := 100; imageHeight := 100;
       previewWidth := 720;
       settings := {| fontSize := 0; spacing := 1.2; contrast := 1;
                      monochrome := true; underlay := 0 |};
       lyrics := lyrics c; tempContext2d := true |} in
  renderToCanvas 1000 frozen (Some blankCanvas) 1 0.7 = None.
Proof.
  cbv zeta.
  apply (render_never_returns _ blankCanvas grayImage 1 0.7 1000);
    try reflexivity; discriminate.
Defined.

(** *** The shape of the grid *)

Lemma Qceiling_pred (q : Q) : Qceiling (q - 1) = (Qceiling q - 1)%Z.
Proof.
  unfold Qceiling.
  assert (Hneg : - (q - 1) == - q + 1) by ring.
  rewrite Hneg, Qfloor_succ. lia.
Qed.

Lemma Qceiling_positive (q : Q) : 0 < q -> (1 <= Qceiling q)%Z.
Proof.
  intros Hq. pose proof (Qle_ceiling q) as Hle.
  assert (Hpos : inject_Z 0 < inject_Z (Qceiling q))
    by (change (inject_Z 0) with 0; lra).
  rewrite <- Zlt_Qlt in Hpos. lia.
Qed.

Lemma Qceiling_nonpositive (q : Q) : q <= 0 -> (Qceiling q <= 0)%Z.
Proof.
  intros Hq. change 0%Z with (Qceiling (inject_Z 0)).
  now apply Qceiling_resp_le.
Qed.

(** A loop from [i] takes [ceil((limit - i) / step)] turns. *)
Lemma scan_length (limit step : Q) (fuel : nat) :
  0 < step ->
  forall (i : Q) (xs : list Q),
    scan fuel i limit step = Some xs ->
    length xs = Z.to_nat (Qceiling ((limit - i) / step)).
Proof.
  intros Hstep.
  assert (Hdone : forall i, limit <= i ->
                    Z.to_nat (Qceiling ((limit - i) / step)) = O).
  { intros i Hge.
    assert (Hq : (limit - i) / step <= 0)
      by (apply Qle_shift_div_r; [exact Hstep | lra]).
    apply Qceiling_nonpositive in Hq. lia. }
  induction fuel as [|fuel IH]; intros i xs; cbn [scan];
    destruct (Qlt_le_dec i limit) as [Hlt|Hge]; try discriminate;
    try (intros [= <-]; now rewrite Hdone).
  destruct (scan fuel (i + step) limit step) as [xs'|] eqn:Hscan;
    [|discriminate].
  intros [= <-]. cbn [length]. rewrite (IH _ _ Hscan).
  assert (Hq : (limit - (i + step)) / step == (limit - i) / step - 1)
    by (field; lra).
  rewrite Hq, Qceiling_pred.
  assert (Hpos : 0 < (limit - i) / step)
    by (apply Qlt_shift_div_l; [exact Hstep | lra]).
  apply Qceiling_positive in Hpos. lia.
Qed.

(** The [j]-th value of the loop variable is [i + j * step]. *)
Lemma scan_nth (limit step : Q) (fuel : nat) :
  forall (i : Q) (xs : list Q),
    scan fuel i limit step = Some xs ->
    forall (j : nat) (x : Q),
      nth_error xs j = Some x -> x == i + inject_Z (Z.of_nat j) * step.
Proof.
  induction fuel as [|fuel IH]; intros i xs; cbn [scan];
    destruct (Qlt_le_dec i limit) as [Hlt|Hge]; try discriminate;
    try (intros [= <-] [|j] x; discriminate).
  destruct (scan fuel (i + step) limit step) as [xs'|] eqn:Hscan;
    [|discriminate].
  intros [= <-] [|j] x; cbn [nth_error].
  - intros [= <-]. change (inject_Z (Z.of_nat 0)) with 0. ring.
  - intros Hnth. rewrite (IH _ _ Hscan j x Hnth).
    rewrite Nat2Z.inj_succ. unfold Z.succ. rewrite inject_Z_plus.
    change (inject_Z 1) with 1. ring.
Qed.

Lemma gridCoords_length (xs ys : list number) :
  length (gridCoords xs ys) = (length xs * length ys)%nat.
Proof.
  unfold gridCoords. induction ys as [|y ys IH]; cbn [flat_map length].
  - now rewrite Nat.mul_0_r.
  - rewrite length_app, length_map, IH, Nat.mul_succ_r. lia.
Qed.

(** Row-major order: the [k]-th place of the grid is in column
    [k mod n] and row [k / n], for [n] columns. *)
Lemma gridCoords_nth (xs ys : list number) :
  forall (k : nat) (x y : number),
    nth_error (gridCoords xs ys) k = Some (x, y) ->
    nth_error xs (k mod length xs) = Some x
    /\ nth_error ys (k / length xs) = Some y.
Proof.
  unfold gridCoords. induction ys as [|y0 ys IH]; intros k x y;
    cbn [flat_map]; [destruct k; discriminate|].
  destruct (Nat.lt_ge_cases k (length xs)) as [Hlt|Hge].
  - rewrite nth_error_app1 by (now rewrite length_map).
    rewrite nth_error_map.
    destruct (nth_error xs k) as [x'|] eqn:Hx; [|discriminate].
    intros [= <- <-].
    rewrite Nat.mod_small, Nat.div_small by exact Hlt. now split.
  - rewrite nth_error_app2 by (now rewrite length_map).
    rewrite length_map. intros Hnth.
    destruct (IH _ _ _ Hnth) as [Hx Hy].
    assert (Hn : length xs <> O).
    { intros Hz. rewrite Hz in Hx. destruct xs; [|discriminate].
      now destruct (_ mod _)%nat. }
    replace k with (k - length xs + 1 * length xs)%nat by lia.
    rewrite Nat.Div0.mod_add, Nat.div_add by exact Hn.
    split; [exact Hx|]. now rewrite Nat.add_1_r.
Qed.

Lemma combine_seq_nth {A : Type} (l : list A) :
  forall (start k : nat),
    nth_error (combine l (seq start (length l))) k
    = option_map (fun a => (a, (start + k)%nat)) (nth_error l k).
Proof.
  induction l as [|a l IH]; intros start [|k]; cbn [length seq combine
    nth_error option_map]; try reflexivity.
  - now rewrite Nat.add_0_r.
  - rewrite IH. now rewrite Nat.add_succ_comm.
Qed.

Lemma cellsFrom_nth (c : Component) (imageData : list byte)
    (scale : number) (coords : list (number * number)) (k : nat)
    (cell : MosaicCell) :
  nth_error (cellsFrom c imageData scale 0 coords) k = Some cell ->
  exists x y,
    nth_error coords k = Some (x, y)
    /\ cell = mosaicCell c imageData scale x y k.
Proof.
  unfold cellsFrom. rewrite nth_error_map, combine_seq_nth.
  destruct (nth_error coords k) as [[x y]|]; [|discriminate].
  cbn. intros [= <-]. now exists x, y.
Qed.

(** What a returning render paints: the cells of a grid of
    [columns] by [rows] places, [stepX] and [stepY] apart. *)
Lemma render_grid (fuel : nat) (c : Component) (cv : HTMLCanvasElement)
    (image : HTMLImageElement) (scale detailBoost : number) :
  Renderable c cv image scale detailBoost ->
  enoughFuel c scale detailBoost fuel ->
  exists xs ys : list number,
    length xs = columns c scale detailBoost
    /\ length ys = rows c scale detailBoost
    /\ (forall j x, nth_error xs j = Some x ->
          x == inject_Z (Z.of_nat j) * stepX c scale detailBoost
          /\ 0 <= x /\ x < baseWidth c scale)
    /\ (forall r y, nth_error ys r = Some y ->
          y == inject_Z (Z.of_nat r) * stepY c scale detailBoost
          /\ 0 <= y /\ y < baseHeight c scale)
    /\ renderToCanvas fuel c (Some cv) scale detailBoost
       = Some (Returned (Some
           (rendered c cv image scale
              (cellsFrom c (pixelsAt image (baseWidth c scale)
                                     (baseHeight c scale))
                 scale 0 (gridCoords xs ys))))).
Proof.
  intros Hr Hf.
  destruct (render_returns fuel c cv image scale detailBoost Hr Hf)
    as (xs & ys & Hxs & Hys & Hxall & Hyall & _ & _ & Hrender).
  exists xs, ys.
  assert (Hzero : forall q : Q, q - 0 == q) by (intros q; ring).
  split.
  { pose proof (scan_length _ _ _ (r_stepX _ _ _ _ _ Hr) _ _ Hxs) as Hlen.
    rewrite Hzero in Hlen. exact Hlen. }
  split.
  { pose proof (scan_length _ _ _ (r_stepY _ _ _ _ _ Hr) _ _ Hys) as Hlen.
    rewrite Hzero in Hlen. exact Hlen. }
  split; [|split; [|exact Hrender]].
  - intros j x Hnth. split.
    + rewrite (scan_nth _ _ _ _ _ Hxs j x Hnth). ring.
    + apply nth_error_In in Hnth.
      now apply (proj1 (Forall_forall _ _) Hxall).
  - intros r y Hnth. split.
    + rewrite (scan_nth _ _ _ _ _ Hys r y Hnth). ring.
    + apply nth_error_In in Hnth.
      now apply (proj1 (Forall_forall _ _) Hyall).
Qed.





(** X9 (lines 105, 143-146): the glyph index runs on across the rows.
    The [k]-th cell painted, counting from 0 over the whole grid, shows
    the code unit of the stream at [k mod length]. *)
Theorem glyphs_follow_the_text (fuel : nat) (c : Component)
    (cv : HTMLCanvasElement) (image : HTMLImageElement)
    (scale detailBoost : number) :
  Renderable c cv image scale detailBoost ->
  enoughFuel c scale detailBoost fuel ->
  let stream := textCharacters (lyrics c) in
  exists cells,
    renderToCanvas fuel c (Some cv) scale detailBoost
    = Some (Returned (Some (rendered c cv image scale cells)))
    /\ forall (k : nat) (cell : MosaicCell),
         nth_error cells k = Some cell ->
         cell_char cell = nth_error stream (k mod length stream)%nat
         /\ cell_char cell <> None.
Proof.
  intros Hr Hf stream.
  destruct (render_grid fuel c cv image scale detailBoost Hr Hf)
    as (xs & ys & _ & _ & _ & _ & Hrender).
  eexists. split; [exact Hrender|].
  intros k cell Hnth.
  destruct (cellsFrom_nth _ _ _ _ _ _ Hnth) as (x & y & _ & ->).
  cbn [mosaicCell styleOf cell_char].
  destruct (glyphAt_defined (textCharacters (lyrics c)) k
              (textCharacters_length (lyrics c))) as (ch & Hch & Hat).
  fold stream in Hch, Hat |- *. rewrite Hat, Hch.
  split; [|discriminate]. f_equal. unfold safeChar.
  destruct (N.eqb_spec ch LF) as [->|_]; [|reflexivity].
  exfalso. apply (textCharacters_no_LF (lyrics c)).
  now apply nth_error_In in Hch.
Qed.

Lemma glyphs_follow_the_text_witness :
  exists cells,
    renderToCanvas 100 graySession (Some blankCanvas) 1 0.7
    = Some (Returned (Some
        (rendered graySession blankCanvas grayImage 1 cells)))
    /\ forall cell,
         nth_error cells 105 = Some cell -> cell_char cell = Some 69%N.
Proof.
  destruct (glyphs_follow_the_text 100 graySession blankCanvas grayImage
              1 0.7 graySession_renderable graySession_fuel)
    as (cells & Hrender & Hglyph).
  exists cells. split; [exact Hrender|].
  intros cell Hnth. destruct (Hglyph 105%nat cell Hnth) as [Hch _].
  rewrite Hch. vm_compute. reflexivity.
Defined.

(** *** Steps, scale and detail *)

(** X10 (lines 100-103): the detail boost is clamped into [[0.5, 1]],
    whatever is passed: a value inside the interval is kept, the
    vertical step is 1.4 times the horizontal one, and the horizontal
    step lies between half and once font size times scale times
    spacing. *)
Theorem steps_shape (c : Component) (scale detailBoost : number) :
  let unit := scaledFont c scale * spacing (settings c) in
  0.5 <= detailFactor detailBoost <= 1
  /\ (0.5 <= detailBoost <= 1 -> detailFactor detailBoost == detailBoost)
  /\ (detailBoost <= 0.5 -> detailFactor detailBoost == 0.5)
  /\ (1 <= detailBoost -> detailFactor detailBoost == 1)
  /\ stepY c scale detailBoost == 1.4 * stepX c scale detailBoost
  /\ (0 <= unit ->
      0.5 * unit <= stepX c scale detailBoost
      /\ stepX c scale detailBoost <= unit).
Proof.
  cbv zeta. pose proof (detailFactor_range detailBoost) as [Hlo Hhi].
  split; [now split|].
  assert (Hcases : forall lo hi : Q,
             lo <= detailBoost -> detailBoost <= hi ->
             0.5 <= lo -> hi <= 1 ->
             lo <= detailFactor detailBoost <= hi).
  { intros lo hi Hl Hh Hl5 Hh1. unfold detailFactor, Math_max, Math_min.
    destruct (Q.min_spec detailBoost 1) as [[Hm Hmin] | [Hm Hmin]];
      destruct (Q.max_spec 0.5 (Qmin detailBoost 1))
        as [[Hlt Hmax] | [Hle Hmax]];
      rewrite Hmax; try rewrite Hmin; rewrite ?Hmin in *; split; lra. }
  split.
  { intros [H5 H1].
    destruct (Hcases detailBoost detailBoost) as [Ha Hb]; lra. }
  split.
  { intros H5. unfold detailFactor, Math_max, Math_min.
    destruct (Q.min_spec detailBoost 1) as [[Hm Hmin] | [Hm Hmin]];
      destruct (Q.max_spec 0.5 (Qmin detailBoost 1))
        as [[Hlt Hmax] | [Hle Hmax]];
      rewrite Hmax; try rewrite Hmin; rewrite ?Hmin in *; lra. }
  split.
  { intros H1. unfold detailFactor, Math_max, Math_min.
    destruct (Q.min_spec detailBoost 1) as [[Hm Hmin] | [Hm Hmin]];
      destruct (Q.max_spec 0.5 (Qmin detailBoost 1))
        as [[Hlt Hmax] | [Hle Hmax]];
      rewrite Hmax; try rewrite Hmin; rewrite ?Hmin in *; lra. }
  split; [unfold stepY, stepX; ring|].
  intros Hunit. unfold stepX.
  set (unit := scaledFont c scale * spacing (settings c)) in *.
  set (d := detailFactor detailBoost) in *.
  split; nra.
Qed.

Lemma steps_shape_witness :
  0 <= scaledFont graySession 4 * spacing (settings graySession)
  /\ 0.5 * (scaledFont graySession 4 * spacing (settings graySession))
     <= stepX graySession 4 0.7.
Proof.
  assert (Hunit : 0 <= scaledFont graySession 4
                       * spacing (settings graySession))
    by discriminate.
  split; [exact Hunit|].
  destruct (steps_shape graySession 4 0.7) as (_ & _ & _ & _ & _ & Hstep).
  exact (proj1 (Hstep Hunit)).
Defined.

Lemma Qdiv_zero_divisor (x y : Q) : y == 0 -> x / y == 0.
Proof.
  intros Hy. unfold Qdiv. rewrite Hy. change (/ 0) with 0. ring.
Qed.

(** Numerator and denominator of a count both grow with the scale. *)
Lemma Qdiv_scaled (n d k : Q) : ~ k == 0 -> (n * k) / (d * k) == n / d.
Proof.
  intros Hk. destruct (Qeq_dec d 0) as [Hd|Hd].
  - rewrite (Qdiv_zero_divisor n d Hd).
    apply Qdiv_zero_divisor. rewrite Hd. ring.
  - field. now split.
Qed.

Lemma inject_Z_nonzero (k : Z) : (1 <= k)%Z -> ~ inject_Z k == 0.
Proof.
  intros Hk Hz. unfold Qeq in Hz. cbn [Qnum Qden inject_Z] in Hz. lia.
Qed.

Lemma columns_integer_scale (c : Component) (k : Z) (detailBoost : number) :
  (1 <= k)%Z ->
  columns c (inject_Z k) detailBoost = columns c 1 detailBoost.
Proof.
  intros Hk. unfold columns.
  change (baseWidth c 1) with (baseWidth c (inject_Z 1)).
  rewrite !baseWidth_integer_scale, inject_Z_mult.
  unfold stepX, scaledFont.
  assert (Hq : inject_Z (previewWidth c) * inject_Z k
               / (fontSize (settings c) * inject_Z k
                  * spacing (settings c) * detailFactor detailBoost)
               == inject_Z (previewWidth c * 1)
                  / (fontSize (settings c) * 1 * spacing (settings c)
                     * detailFactor detailBoost)).
  { rewrite <- (Qdiv_scaled (inject_Z (previewWidth c * 1)) _ (inject_Z k))
      by now apply inject_Z_nonzero.
    rewrite inject_Z_mult. change (inject_Z 1) with 1.
    apply Qdiv_comp; ring. }
  now rewrite Hq.
Qed.

Lemma rows_integer_scale (c : Component) (k : Z) (detailBoost : number) :
  (1 <= k)%Z ->
  rows c (inject_Z k) detailBoost = rows c 1 detailBoost.
Proof.
  intros Hk. unfold rows, baseHeight, stepY, scaledFont.
  set (F := Math_floor (inject_Z (previewWidth c) / aspect c)).
  assert (Hq : F * inject_Z k
               / (fontSize (settings c) * inject_Z k
                  * spacing (settings c) * 1.4 * detailFactor detailBoost)
               == F * 1
                  / (fontSize (settings c) * 1 * spacing (settings c)
                     * 1.4 * detailFactor detailBoost)).
  { rewrite <- (Qdiv_scaled (F * 1) _ (inject_Z k))
      by now apply inject_Z_nonzero.
    apply Qdiv_comp; ring. }
  now rewrite Hq.
Qed.

Lemma steps_integer_scale (c : Component) (k : Z) (detailBoost : number) :
  stepX c (inject_Z k) detailBoost == inject_Z k * stepX c 1 detailBoost
  /\ stepY c (inject_Z k) detailBoost
     == inject_Z k * stepY c 1 detailBoost.
Proof.
  unfold stepX, stepY, scaledFont. split; ring.
Qed.

Lemma renderable_integer_scale (c : Component)
    (cv cv' : HTMLCanvasElement) (image : HTMLImageElement) (k : Z)
    (detailBoost : number) :
  (1 <= k)%Z -> context2d cv' = true ->
  Renderable c cv image 1 detailBoost ->
  Renderable c cv' image (inject_Z k) detailBoost.
Proof.
  intros Hk Hctx [Himg Hw Hh _ Htmp Hbw Hbh Hsx Hsy].
  destruct (steps_integer_scale c k detailBoost) as [Hx Hy].
  assert (Hkpos : 0 < inject_Z k)
    by (change 0 with (inject_Z 0); rewrite <- Zlt_Qlt; lia).
  constructor; try assumption.
  - change (baseWidth c 1) with (baseWidth c (inject_Z 1)) in Hbw.
    rewrite baseWidth_integer_scale in *.
    intros Hz. apply Hbw. unfold Qeq in *.
    cbn [Qnum Qden inject_Z] in *. nia.
  - unfold baseHeight in *. intros Hz. apply Hbh.
    apply Qmult_integral in Hz. destruct Hz as [Hz|Hz].
    + rewrite Hz. ring.
    + now apply inject_Z_nonzero in Hz.
  - rewrite Hx. now apply Qmult_lt_0_compat.
  - rewrite Hy. now apply Qmult_lt_0_compat.
Qed.

Lemma enoughFuel_integer_scale (c : Component) (k : Z)
    (detailBoost : number) (fuel : nat) :
  (1 <= k)%Z ->
  enoughFuel c 1 detailBoost fuel ->
  enoughFuel c (inject_Z k) detailBoost fuel.
Proof.
  intros Hk [Hx Hy].
  pose proof (columns_integer_scale c k detailBoost Hk) as Hc.
  pose proof (rows_integer_scale c k detailBoost Hk) as Hr.
  unfold columns, rows in Hc, Hr. unfold enoughFuel, fuelFor in *.
  rewrite Hc, Hr. now split.
Qed.



Lemma detailFactor_monotone (b b' : Q) :
  b <= b' -> detailFactor b <= detailFactor b'.
Proof.
  intros Hb. unfold detailFactor, Math_max, Math_min.
  destruct (Q.min_spec b 1) as [[Hm Hmin] | [Hm Hmin]];
    destruct (Q.min_spec b' 1) as [[Hm' Hmin'] | [Hm' Hmin']];
    destruct (Q.max_spec 0.5 (Qmin b 1)) as [[Hlt Hmax] | [Hle Hmax]];
    destruct (Q.max_spec 0.5 (Qmin b' 1)) as [[Hlt' Hmax'] | [Hle' Hmax']];
    rewrite Hmax, Hmax'; rewrite ?Hmin, ?Hmin' in *; lra.
Qed.

(** A longer step gives no more turns. *)
Lemma turns_antitone (limit step step' : Q) :
  0 < step -> step <= step' ->
  (Z.to_nat (Qceiling (limit / step'))
   <= Z.to_nat (Qceiling (limit / step)))%nat.
Proof.
  intros Hpos Hle.
  assert (Hpos' : 0 < step') by lra.
  destruct (Qlt_le_dec limit 0) as [Hneg|Hnonneg].
  - assert (Hq : limit / step' <= 0)
      by (apply Qle_shift_div_r; [exact Hpos' | lra]).
    apply Qceiling_nonpositive in Hq. lia.
  - assert (Hq : limit / step' <= limit / step).
    { apply Qle_shift_div_l; [exact Hpos|].
      assert (Hq0 : 0 <= limit / step')
        by (apply Qle_shift_div_l; [exact Hpos' | lra]).
      assert (Hback : limit / step' * step' == limit)
        by (field; lra).
      rewrite <- Hback at 2.
      rewrite !(Qmult_comm (limit / step')).
      now apply Qmult_le_compat_r. }
    apply Qceiling_resp_le in Hq. lia.
Qed.

Lemma columns_antitone (c : Component) (b b' : number) :
  0 < stepX c 1 b -> b <= b' ->
  (columns c 1%Q b' <= columns c 1%Q b)%nat.
Proof.
  intros Hpos Hb. unfold columns. apply turns_antitone; [exact Hpos|].
  pose proof (detailFactor_monotone b b' Hb) as Hd.
  pose proof (detailFactor_range b) as [Hd5 _].
  unfold stepX in *.
  set (u := scaledFont c 1 * spacing (settings c)) in *.
  assert (Hu : 0 < u).
  { destruct (Qlt_le_dec 0 u) as [H|H]; [exact H|]. exfalso.
    assert (Hneg : u * detailFactor b <= 0 * detailFactor b)
      by (apply Qmult_le_compat_r; lra).
    lra. }
  apply Qmult_le_l; assumption.
Qed.

Lemma rows_antitone (c : Component) (b b' : number) :
  0 < stepY c 1 b -> b <= b' -> (rows c 1%Q b' <= rows c 1%Q b)%nat.
Proof.
  intros Hpos Hb. unfold rows. apply turns_antitone; [exact Hpos|].
  pose proof (detailFactor_monotone b b' Hb) as Hd.
  pose proof (detailFactor_range b) as [Hd5 _].
  unfold stepY in *.
  set (u := scaledFont c 1 * spacing (settings c) * 1.4) in *.
  assert (Hu : 0 < u).
  { destruct (Qlt_le_dec 0 u) as [H|H]; [exact H|]. exfalso.
    assert (Hneg : u * detailFactor b <= 0 * detailFactor b)
      by (apply Qmult_le_compat_r; lra).
    lra. }
  apply Qmult_le_l; assumption.
Qed.



End GridFacts.

(** ** The styling of a cell (lines 127-141) *)

Module StyleFacts.
Import JS Sampler Intensity Glyph Renderer.
Import JSFacts SamplerFacts IntensityFacts.
Local Open Scope Q_scope.

Lemma clamp_monotone (v v' lo hi : Q) :
  (v <= v')%Q -> (clamp v lo hi <= clamp v' lo hi)%Q.
Proof.
  intros Hv. unfold clamp, Math_min, Math_max.
  apply Q.min_le_compat_r, Q.max_le_compat_r, Hv.
Qed.

Lemma contrasted_monotone (contrast lum lum' : Q) :
  (0 <= contrast)%Q -> (lum <= lum')%Q ->
  (contrasted contrast lum <= contrasted contrast lum')%Q.
Proof.
  intros Hc Hl. unfold contrasted. apply clamp_monotone.
  apply Qplus_le_l, Qmult_le_compat_r; [lra | exact Hc].
Qed.

Lemma Math_pow_monotone (b b' e : R) :
  (0 <= e -> b <= b' -> Math_pow b e <= Math_pow b' e)%R.
Proof.
  intros He Hb. unfold Math_pow.
  destruct (Rlt_dec 0 b) as [Hpos|Hneg];
    destruct (Rlt_dec 0 b') as [Hpos'|Hneg']; try lra.
  - apply Rle_Rpower_l; [exact He | lra].
  - left. unfold Rpower. apply exp_pos.
Qed.

Lemma intensity_antitone (c c' : Q) :
  (c <= c')%Q -> (intensity c' <= intensity c)%R.
Proof.
  intros Hc. unfold intensity. apply Math_pow_monotone; [lra|].
  rewrite !Q2R_base. apply Qle_Rle in Hc. lra.
Qed.

Lemma weight_monotone (i i' : R) :
  (i <= i')%R -> (weight i <= weight i')%Z.
Proof.
  intros Hi. unfold weight, Math_roundR. apply Zfloor_le. lra.
Qed.

(** X13 (lines 127-136): a darker sample never gets a lighter glyph.
    With a contrast that is not negative and a font size times scale
    that is not negative, a sample of lower luminance has an intensity,
    a weight, a size and an alpha at least as large. *)
Theorem darker_is_heavier (c : Component) (scale : number)
    (dark light : Sample) (x y x' y' : number) (i i' : nat) :
  (luminance dark <= luminance light)%Q ->
  (0 <= contrast (settings c))%Q ->
  (0 <= scaledFont c scale)%Q ->
  let a := styleOf c scale dark x y i in
  let b := styleOf c scale light x' y' i' in
  (cell_contrasted a <= cell_contrasted b)%Q
  /\ (cell_intensity b <= cell_intensity a)%R
  /\ (cell_weight b <= cell_weight a)%Z
  /\ (cell_size b <= cell_size a)%R
  /\ (ca (cell_fill b) <= ca (cell_fill a))%R.
Proof.
  intros Hlum Hcontrast Hfont. cbv zeta.
  cbn [styleOf cell_contrasted cell_intensity cell_weight cell_size
       cell_fill].
  pose proof (contrasted_monotone _ _ _ Hcontrast Hlum) as Hcon.
  pose proof (intensity_antitone _ _ Hcon) as Hint.
  assert (Halpha : forall m s v, ca (fillStyle m s v) = v)
    by (intros m s v; unfold fillStyle; now destruct m).
  split; [exact Hcon|]. split; [exact Hint|].
  split; [now apply weight_monotone|].
  split.
  - unfold size. apply Qle_Rle in Hfont.
    apply Rmult_le_compat_l; [lra | lra].
  - rewrite !Halpha. unfold alpha. lra.
Qed.

Lemma darker_is_heavier_witness :
  let dark := {| red := 10; green := 20; blue := 30 |} in
  let light := {| red := 200; green := 210; blue := 220 |} in
  (cell_weight (styleOf graySession 1%Q light 0%Q 0%Q 0%nat)
   <= cell_weight (styleOf graySession 1%Q dark 0%Q 0%Q 0%nat))%Z.
Proof.
  cbv zeta.
  refine (proj1 (proj2 (proj2
            (darker_is_heavier graySession 1
               {| red := 10; green := 20; blue := 30 |}
               {| red := 200; green := 210; blue := 220 |}
               0%Q 0%Q 0%Q 0%Q 0 0 _ _ _))));
    discriminate.
Defined.

Lemma luminance_range (s : Sample) :
  (0 <= red s <= 255 -> 0 <= green s <= 255 -> 0 <= blue s <= 255 ->
   0 <= luminance s <= 255)%Q.
Proof.
  intros Hr Hg Hb. unfold luminance. split; lra.
Qed.

Lemma clamp_inside (v : Q) : (0 <= v <= 255 -> clamp v 0 255 == v)%Q.
Proof.
  intros [H0 H255]. unfold clamp, Math_min, Math_max.
  rewrite Q.max_l by exact H0. now rewrite Q.min_l.
Qed.

(** X14 (lines 117-132): the luminance of a colour with channels in
    [[0, 255]] lies in [[0, 255]], and that of a gray [(v, v, v)] is
    [v]: the three weights add up to 1.  So every sampled colour has
    such a luminance, and at contrast 1 the clamp leaves it as it is. *)
Theorem luminance_of_a_colour (c : Component) (imageData : list byte)
    (scale x y : number) (i : nat) (s : Sample) (v : Q) :
  ((0 <= red s <= 255 -> 0 <= green s <= 255 -> 0 <= blue s <= 255 ->
    0 <= luminance s <= 255
    /\ (contrast (settings c) == 1 ->
        contrasted (contrast (settings c)) (luminance s) == luminance s))
   /\ (red s == v -> green s == v -> blue s == v -> luminance s == v)
   /\ (let cell := mosaicCell c imageData scale x y i in
       0 <= luminance (cell_sample cell) <= 255
       /\ (contrast (settings c) == 1 ->
           cell_contrasted cell == luminance (cell_sample cell))))%Q.
Proof.
  assert (Hone : forall t : Sample,
             (0 <= luminance t <= 255 -> contrast (settings c) == 1 ->
              contrasted (contrast (settings c)) (luminance t)
              == luminance t)%Q).
  { intros t Hrange Hc.
    rewrite <- (clamp_inside _ Hrange) at 2.
    unfold contrasted, clamp, Math_min, Math_max.
    assert (Hid : ((luminance t - 128) * contrast (settings c) + 128
                   == luminance t)%Q) by (rewrite Hc; ring).
    now rewrite Hid. }
  split; [|split].
  - intros Hr Hg Hb. pose proof (luminance_range s Hr Hg Hb) as Hl.
    split; [exact Hl | now apply Hone].
  - intros Hr Hg Hb. unfold luminance. rewrite Hr, Hg, Hb. ring.
  - cbv zeta. unfold mosaicCell.
    cbn [styleOf cell_sample cell_contrasted].
    set (t := sampleAt imageData (baseWidth c scale) (baseHeight c scale)
                x y).
    destruct (sampleAt_range imageData (baseWidth c scale)
                (baseHeight c scale) x y) as (Hr & Hg & Hb).
    pose proof (luminance_range t Hr Hg Hb) as Hl.
    split; [exact Hl | now apply Hone].
Qed.

Lemma luminance_of_a_colour_witness :
  let s := {| red := 255; green := 127.5; blue := 0 |} in
  (0 <= luminance s <= 255)%Q.
Proof.
  cbv zeta.
  destruct (luminance_of_a_colour graySession [] 1 0%Q 0%Q 0
              {| red := 255; green := 127.5; blue := 0 |} 0%Q)
    as (Hrange & _).
  refine (proj1 (Hrange _ _ _)); split; discriminate.
Defined.

(** X15 (lines 128-136): the luminance 128 is the pivot of the contrast.
    A sample of luminance 128 has the contrasted luminance 128 whatever
    the contrast, and so the weight 681 and an alpha of 0.7996, give or
    take 0.0001. *)
Theorem mid_gray_ignores_contrast (c : Component) (scale : number)
    (s : Sample) (x y : number) (i : nat) :
  (luminance s == 128)%Q ->
  let cell := styleOf c scale s x y i in
  (cell_contrasted cell == 128)%Q
  /\ cell_weight cell = 681%Z
  /\ (0.7995 < ca (cell_fill cell) < 0.7997)%R.
Proof.
  intros Hlum. cbv zeta.
  cbn [styleOf cell_contrasted cell_weight cell_fill].
  assert (Hcon : (contrasted (contrast (settings c)) (luminance s)
                  == 128)%Q).
  { unfold contrasted, clamp, Math_min, Math_max.
    assert (Hmid : ((luminance s - 128) * contrast (settings c) + 128
                    == 128)%Q) by (rewrite Hlum; ring).
    rewrite Hmid. reflexivity. }
  destruct (gray_styling _ Hcon) as (_ & Hweight & Halpha).
  split; [exact Hcon|]. split; [exact Hweight|].
  unfold fillStyle. now destruct (monochrome (settings c)).
Qed.

Lemma mid_gray_ignores_contrast_witness :
  let s := {| red := 128; green := 128; blue := 128 |} in
  let loud :=
    {| imageRef := None; imageWidth := 0; imageHeight := 0;
       previewWidth := 720;
       settings := {| fontSize := 18; spacing := 1.2; contrast := 1.8;
                      monochrome := false; underlay := 0 |};
       lyrics := []; tempContext2d := true |} in
  cell_weight (styleOf loud 1 s 0%Q 0%Q 0) = 681%Z.
Proof.
  cbv zeta.
  refine (proj1 (proj2 (mid_gray_ignores_contrast _ 1
                          {| red := 128; green := 128; blue := 128 |}
                          0%Q 0%Q 0 _))).
  reflexivity.
Defined.

Lemma contrasted_high (contrast lum : Q) :
  (255 <= (lum - 128) * contrast + 128 ->
   contrasted contrast lum == 255)%Q.
Proof.
  intros H. unfold contrasted, clamp, Math_min, Math_max.
  rewrite Q.min_r; [reflexivity|].
  eapply Qle_trans; [exact H | apply Q.le_max_l].
Qed.

Lemma contrasted_low (contrast lum : Q) :
  ((lum - 128) * contrast + 128 <= 0 ->
   contrasted contrast lum == 0)%Q.
Proof.
  intros H. unfold contrasted, clamp, Math_min, Math_max.
  rewrite Q.max_r by exact H. now rewrite Q.min_l.
Qed.

Lemma intensity_255 (c : Q) : (c == 255)%Q -> intensity c = 0%R.
Proof.
  intros Hc. unfold intensity.
  assert (Hbase : (1 - c / 255 == 0)%Q) by (rewrite Hc; reflexivity).
  rewrite (Qeq_eqR _ _ Hbase). unfold Math_pow.
  destruct (Rlt_dec 0 (Q2R 0)) as [H|_]; [lra | reflexivity].
Qed.

Lemma intensity_0 (c : Q) : (c == 0)%Q -> intensity c = 1%R.
Proof.
  intros Hc. unfold intensity.
  assert (Hbase : (1 - c / 255 == 1)%Q) by (rewrite Hc; reflexivity).
  rewrite (Qeq_eqR _ _ Hbase).
  replace (Q2R 1) with 1%R by lra.
  rewrite Math_pow_pos by lra. apply Rpower_one.
Qed.

(** X16 (lines 128-136): the ends of the scale are reached.  Where the
    contrast pushes the luminance to 255 or beyond, the cell gets the
    intensity 0, the weight 300, the alpha 0.45 and 0.85 times the
    scaled font size; where it pushes it to 0 or below, the intensity
    1, the weight 900, the alpha 1 and 1.65 times the scaled font
    size.  Between them the size stays within these two factors. *)
Theorem styling_extremes (c : Component) (scale : number) (s : Sample)
    (x y : number) (i : nat) :
  let cell := styleOf c scale s x y i in
  let pushed :=
    ((luminance s - 128) * contrast (settings c) + 128)%Q in
  ((255 <= pushed)%Q ->
   cell_intensity cell = 0%R /\ cell_weight cell = 300%Z
   /\ ca (cell_fill cell) = 0.45%R
   /\ cell_size cell = (Q2R (scaledFont c scale) * 0.85)%R)
  /\ ((pushed <= 0)%Q ->
      cell_intensity cell = 1%R /\ cell_weight cell = 900%Z
      /\ ca (cell_fill cell) = 1%R
      /\ cell_size cell = (Q2R (scaledFont c scale) * 1.65)%R)
  /\ ((0 <= scaledFont c scale)%Q ->
      (Q2R (scaledFont c scale) * 0.85 <= cell_size cell
       <= Q2R (scaledFont c scale) * 1.65)%R).
Proof.
  cbv zeta. cbn [styleOf cell_intensity cell_weight cell_size cell_fill].
  assert (Halpha : forall v,
             ca (fillStyle (monochrome (settings c)) s v) = v)
    by (intros v; unfold fillStyle; now destruct (monochrome (settings c))).
  split; [|split].
  - intros Hhigh.
    rewrite (intensity_255 _ (contrasted_high _ _ Hhigh)), Halpha.
    split; [reflexivity|]. split.
    + unfold weight, Math_roundR. apply Zfloor_eq. lra.
    + unfold alpha, size. split; [lra | f_equal; lra].
  - intros Hlow.
    rewrite (intensity_0 _ (contrasted_low _ _ Hlow)), Halpha.
    split; [reflexivity|]. split.
    + unfold weight, Math_roundR. apply Zfloor_eq. lra.
    + unfold alpha, size. split; [lra | f_equal; lra].
  - intros Hfont. apply Qle_Rle in Hfont.
    pose proof (intensity_range (contrast (settings c)) (luminance s))
      as Hi.
    unfold size. split; apply Rmult_le_compat_l; lra.
Qed.

Lemma styling_extremes_witness :
  let white := {| red := 255; green := 255; blue := 255 |} in
  cell_weight (styleOf graySession 4 white 0%Q 0%Q 0) = 300%Z.
Proof.
  cbv zeta.
  destruct (styling_extremes graySession 4
              {| red := 255; green := 255; blue := 255 |} 0%Q 0%Q 0)
    as (Hhigh & _).
  refine (proj1 (proj2 (Hhigh _))). discriminate.
Defined.

Lemma Math_round_range (q : Q) :
  (0 <= q <= 255)%Q -> (0 <= Math_round q <= 255)%Z.
Proof.
  intros [H0 H255]. unfold Math_round. split.
  - apply Qfloor_nonneg. lra.
  - change 255%Z with (Qfloor (255 + (1 # 2))).
    apply Qfloor_resp_le. lra.
Qed.

(** X17 (lines 117-125, 139-141): the fill colour is always a valid
    RGB colour.  In every cell each of its three channels is an integer
    in [[0, 255]], with or without monochrome, whatever the buffer, the
    surface and the coordinate. *)
Theorem fill_colour_is_valid (c : Component) (imageData : list byte)
    (scale x y : number) (i : nat) :
  let fill := cell_fill (mosaicCell c imageData scale x y i) in
  (0 <= cr fill <= 255 /\ 0 <= cg fill <= 255 /\ 0 <= cb fill <= 255)%Z.
Proof.
  cbv zeta. unfold mosaicCell. cbn [styleOf cell_fill].
  destruct (sampleAt_range imageData (baseWidth c scale)
              (baseHeight c scale) x y) as (Hr & Hg & Hb).
  unfold fillStyle. destruct (monochrome (settings c)); cbn [cr cg cb].
  - lia.
  - repeat split; now apply Math_round_range.
Qed.

End StyleFacts.

(** ** Flat images (lines 109-125, 139-141) *)

Module FlatFacts.
Import JS Sampler Intensity Shape.
Import JSFacts SamplerFacts.

Section Flat.
Variables (data : list byte) (w h : Z) (r g b : byte).
Hypothesis Hw : 1 <= w.
Hypothesis Hh : 1 <= h.
Hypothesis Hlen : length data = Z.to_nat (4 * w * h).
Hypothesis Hflat : uniformColour r g b data.

(** The byte a read returns at channel [k] of a pixel. *)
Lemma flat_read (row col k : Z) (v : byte) :
  0 <= row <= h - 1 -> 0 <= col <= w - 1 ->
  (k = 0 /\ v = r) \/ (k = 1 /\ v = g) \/ (k = 2 /\ v = b) ->
  orZero (typedArrayGet data
            (inject_Z ((row * w + col) * 4) + inject_Z k)%Q)
  = byteValue v.
Proof.
  intros Hr Hc Hk.
  assert (Hk2 : 0 <= k <= 2) by lia.
  assert (Hn : 0 <= (row * w + col) * 4 + k < 4 * w * h) by nia.
  rewrite <- inject_Z_plus, typedArrayGet_inject_Z by lia.
  destruct (nth_error data (Z.to_nat ((row * w + col) * 4 + k)))
    as [u|] eqn:Hnth; [|apply nth_error_None in Hnth; lia].
  destruct (Hflat _ u (proj1 Hn) Hnth) as (H0 & H1 & H2).
  assert (Hmod : ((row * w + col) * 4 + k) mod 4 = k).
  { rewrite Z.add_comm, Z.mod_add by lia. apply Z.mod_small. lia. }
  rewrite Hmod in H0, H1, H2. cbn [orZero option_map]. f_equal.
  destruct Hk as [[-> ->] | [[-> ->] | [-> ->]]]; auto.
Qed.

Lemma flat_sample (x y : Q) :
  sampleAt data (inject_Z w) (inject_Z h) x y
  = {| red := (byteValue r + byteValue r) / 2;
       green := (byteValue g + byteValue g) / 2;
       blue := (byteValue b + byteValue b) / 2 |}%Q.
Proof.
  pose proof (row_range h y Hh) as Hrow.
  pose proof (col_range w x Hw) as Hcol.
  pose proof (altRow_range h y Hh) as Harow.
  pose proof (altCol_range w x Hw) as Hacol.
  assert (Hzero : forall q : Q, (q == q + inject_Z 0)%Q)
    by (intros q; ring).
  unfold sampleAt, channel. rewrite pixelIndex_int, altIndex_int.
  rewrite (typedArrayGet_comp data _ _ (Hzero (inject_Z _))).
  rewrite (typedArrayGet_comp data
             (inject_Z ((altRow h y * w + altCol w x) * 4)) _ (Hzero _)).
  change 1%Q with (inject_Z 1). change 2%Q with (inject_Z 2).
  rewrite !(flat_read _ _ 0 r), !(flat_read _ _ 1 g),
    !(flat_read _ _ 2 b) by (try lia; tauto).
  reflexivity.
Qed.
End Flat.

Lemma Math_round_double (v : byte) :
  Math_round ((byteValue v + byteValue v) / 2)%Q = Z.of_N (Byte.to_N v).
Proof.
  unfold Math_round, byteValue.
  set (n := Z.of_N (Byte.to_N v)).
  apply Qfloor_unique.
  - assert (Hq : ((inject_Z n + inject_Z n) / 2 + (1 # 2)
                  == inject_Z n + (1 # 2))%Q) by field.
    rewrite Hq. lra.
  - rewrite inject_Z_plus. change (inject_Z 1) with 1%Q.
    assert (Hq : ((inject_Z n + inject_Z n) / 2 + (1 # 2)
                  == inject_Z n + (1 # 2))%Q) by field.
    rewrite Hq. lra.
Qed.



End FlatFacts.

(** ** The ways a render ends (lines 67-97) *)

Module OutcomeFacts.
Import JS Sampler Intensity Glyph Renderer.
Import JSFacts LoopFacts RendererFacts.
Local Open Scope Q_scope.

(** A loop that ends has run its body on the values [scan] lists. *)
Lemma forLoop_some {St : Type} (limit step : number)
    (body : number -> St -> option St) (fuel : nat) :
  forall (i : number) (st st' : St),
    forLoop fuel i limit step body st = Some st' ->
    exists xs, scan fuel i limit step = Some xs.
Proof.
  induction fuel as [|fuel IH]; intros i st st'; cbn [forLoop scan];
    destruct (Qlt_le_dec i limit) as [Hlt|Hge]; try discriminate;
    try (intros _; now exists []).
  destruct (body i st) as [st1|]; [|discriminate].
  intros Hloop. destruct (IH _ _ _ Hloop) as [xs Hxs].
  rewrite Hxs. now exists (i :: xs).
Qed.

(** Whatever the grid loop paints comes after what was there. *)
Lemma paintGrid_appends (fuel : nat) (c : Component)
    (imageData : list byte) (scale detailBoost : number)
    (st st' : LoopState) :
  paintGrid fuel c imageData scale detailBoost st = Some st' ->
  exists cells, fst st' = fst st ++ map DrawGlyph cells.
Proof.
  intros Hgrid. destruct st as [ops n].
  destruct (forLoop_some _ _ _ _ _ _ _ Hgrid) as [ys Hys].
  destruct ys as [|y ys].
  - unfold paintGrid in Hgrid.
    rewrite (forLoop_scan _ _ _ _ _ _ _ Hys) in Hgrid.
    cbn in Hgrid. injection Hgrid as <-. exists [].
    cbn. now rewrite app_nil_r.
  - assert (Hrow : exists xs,
               scan fuel 0 (baseWidth c scale) (stepX c scale detailBoost)
               = Some xs).
    { unfold paintGrid in Hgrid.
      rewrite (forLoop_scan _ _ _ _ _ _ _ Hys) in Hgrid.
      cbn [fold_left turn] in Hgrid.
      destruct (paintRow fuel c imageData scale detailBoost y (ops, n))
        as [st1|] eqn:Hfirst.
      - unfold paintRow in Hfirst.
        now apply forLoop_some in Hfirst.
      - now rewrite fold_turn_None in Hgrid. }
    destruct Hrow as [xs Hxs].
    rewrite (paintGrid_cells c imageData scale detailBoost fuel xs
               (y :: ys) Hxs Hys) in Hgrid.
    injection Hgrid as <-. cbn [fst]. eexists. reflexivity.
Qed.

(** A render that returns a canvas left it untouched, or resized it and
    kept the calls it had. *)
Lemma render_keeps_calls (fuel : nat) (c : Component)
    (cv cv' : HTMLCanvasElement) (scale detailBoost : number) :
  renderToCanvas fuel c (Some cv) scale detailBoost
  = Some (Returned (Some cv')) ->
  (cv' = cv
   /\ (imageRef c = None \/ imageWidth c = 0%Z \/ imageHeight c = 0%Z))
  \/ (width cv' = baseWidth c scale /\ height cv' = baseHeight c scale
      /\ exists ops, painted cv' = painted cv ++ ops).
Proof.
  unfold renderToCanvas. cbv zeta.
  destruct (imageRef c) as [image|];
    [|intros [= <-]; left; split; [reflexivity | now left]].
  unfold falsy.
  destruct (Z.eqb_spec (imageWidth c) 0) as [Hw|_];
    [intros [= <-]; left; split; [reflexivity | right; now left]|].
  destruct (Z.eqb_spec (imageHeight c) 0) as [Hh|_];
    [intros [= <-]; left; split; [reflexivity | right; now right]|].
  cbn [orb].
  assert (Hbare : forall w h,
             exists ops, painted (resized cv w h) = painted cv ++ ops)
    by (intros w h; exists []; cbn; now rewrite app_nil_r).
  destruct (context2d cv); cbn [negb];
    [|intros [= <-]; right; repeat split; apply Hbare].
  destruct (tempContext2d c); cbn [negb];
    [|intros [= <-]; right; repeat split; apply Hbare].
  destruct (Qeq_bool (baseWidth c scale) 0 || Qeq_bool (baseHeight c scale) 0);
    [discriminate|].
  destruct (paintGrid fuel c _ scale detailBoost _) as [st|] eqn:Hgrid;
    [|discriminate].
  intros [= <-]. right. repeat split.
  destruct (paintGrid_appends _ _ _ _ _ _ _ Hgrid) as [cells Hcells].
  cbn [painted withPainted]. rewrite Hcells. cbn [fst painted resized].
  rewrite <- app_assoc. eexists. reflexivity.
Qed.

(** X19 (lines 67-149): a render ends in one of four ways, and in no
    other.  It returns the canvas untouched (the guard); or it returns
    it resized and unpainted (a 2D context is missing); or it raises on
    the resized, unpainted canvas (the surface is empty); or it returns
    it resized, with the background, the underlay and then glyph cells
    added after the calls the canvas already had. *)
Theorem render_ends_in_four_ways (fuel : nat) (c : Component)
    (cv : HTMLCanvasElement) (scale detailBoost : number) (o : Outcome) :
  renderToCanvas fuel c (Some cv) scale detailBoost = Some o ->
  let w := baseWidth c scale in
  let h := baseHeight c scale in
  (o = Returned (Some cv)
   /\ (imageRef c = None \/ imageWidth c = 0%Z \/ imageHeight c = 0%Z))
  \/ (o = Returned (Some (resized cv w h))
      /\ (context2d cv = false \/ tempContext2d c = false))
  \/ (o = Raised (Some (resized cv w h)) /\ (w == 0 \/ h == 0))
  \/ (exists image cells,
         imageRef c = Some image
         /\ o = Returned (Some (rendered c cv image scale cells))).
Proof.
  unfold renderToCanvas. cbv zeta.
  destruct (imageRef c) as [image|];
    [|intros [= <-]; left; split; [reflexivity | now left]].
  unfold falsy.
  destruct (Z.eqb_spec (imageWidth c) 0) as [Hw|_];
    [intros [= <-]; left; split; [reflexivity | right; now left]|].
  destruct (Z.eqb_spec (imageHeight c) 0) as [Hh|_];
    [intros [= <-]; left; split; [reflexivity | right; now right]|].
  cbn [orb].
  destruct (context2d cv) eqn:Hctx; cbn [negb];
    [|intros [= <-]; right; left; split; [reflexivity | now left]].
  destruct (tempContext2d c) eqn:Htmp; cbn [negb];
    [|intros [= <-]; right; left; split; [reflexivity | now right]].
  destruct (Qeq_bool (baseWidth c scale) 0) eqn:Hzw.
  { intros [= <-]. right. right. left. split; [reflexivity|].
    left. now apply Qeq_bool_iff. }
  destruct (Qeq_bool (baseHeight c scale) 0) eqn:Hzh.
  { intros [= <-]. right. right. left. split; [reflexivity|].
    right. now apply Qeq_bool_iff. }
  cbn [orb].
  destruct (paintGrid fuel c _ scale detailBoost _) as [st|] eqn:Hgrid;
    [|discriminate].
  intros [= <-]. right. right. right.
  destruct (paintGrid_appends _ _ _ _ _ _ _ Hgrid) as [cells Hcells].
  exists image, cells. split; [reflexivity|].
  rewrite Hcells. cbn [fst]. unfold rendered.
  now rewrite <- app_assoc.
Qed.


Lemma render_ends_in_four_ways_witness :
  exists o : Outcome,
    renderToCanvas 100 graySession (Some blankCanvas) 4 1 = Some o
    /\ exists image cells,
         imageRef graySession = Some image
         /\ o = Returned (Some (rendered graySession blankCanvas image 4
                                  cells)).
Proof.
  destruct (render_returns 100 graySession blankCanvas grayImage 4 1
              graySession_export_renderable graySession_export_fuel)
    as (xs & ys & _ & _ & _ & _ & _ & _ & Hrender).
  eexists. split; [exact Hrender|].
  destruct (render_ends_in_four_ways 100 graySession blankCanvas 4 1 _
              Hrender)
    as [[Ho _] | [[Ho _] | [[Ho _] | Hpainted]]];
    [exfalso; clear -Ho; inversion Ho as [Hcv];
     apply (f_equal Renderer.width) in Hcv; revert Hcv;
     vm_compute; discriminate
    |exfalso; clear -Ho; inversion Ho as [Hcv];
     apply (f_equal (fun cv => length (painted cv))) in Hcv; revert Hcv;
     unfold rendered, resized, withPainted; cbn [painted];
     rewrite !length_app; cbn [length prelude]; lia
    |discriminate Ho
    |exact Hpainted].
Defined.

End OutcomeFacts.

(** ** The page (lines 46-59, 153-193) *)

Module PageFacts.
Import JS Page.
Import Stdlib.Strings.String.
Import JSFacts SamplerFacts RendererFacts OutcomeFacts.
Local Open Scope Q_scope.

Lemma consistent_initial : consistent initialHome.
Proof.
  unfold consistent, initialHome; cbn.
  repeat split; try lia; try discriminate; auto.
Qed.

Lemma consistent_step (h : Home) (e : Event) :
  consistent h -> consistent (step h e).
Proof.
  intros Hh.
  destruct e as [v|v|v|v|v| |clientWidth| | |fs|fs|file img url| ];
    cbn [step]; try exact Hh.
  - destruct clientWidth as [cw|]; cbn [resize]; [|exact Hh].
    destruct Hh as (Hpw & Hsrc & Hsize & Hnone & Hproc).
    unfold consistent, setPreviewWidth; cbn.
    repeat split; try lia; try apply Hsrc; auto.
  - destruct (handleFile file); [|exact Hh].
    unfold consistent, onload; cbn.
    destruct Hh as (Hpw & _).
    repeat split; try lia; try discriminate.
    intros img' [= <-]. reflexivity.
  - destruct (imageSrc h) eqn:Hs; [|exact Hh].
    destruct Hh as (Hpw & Hsrc & Hsize & Hnone & Hproc).
    unfold consistent, setProcessed; cbn.
    repeat split; try lia; try apply Hsrc; auto.
    rewrite Hs. discriminate.
Qed.

Lemma consistent_run (events : list Event) :
  forall h, consistent h -> consistent (run events h).
Proof.
  induction events as [|e events IH]; intros h Hh; [exact Hh|].
  apply IH, consistent_step, Hh.
Qed.

(** X20 (lines 46-59, 153-170, 195-198): what every reachable state of
    the page satisfies.  After any sequence of edits, resizes, drags,
    loads and preview renders from the initial state, the preview width
    lies between 280 and 820; a source URL is set exactly when an image
    is held; the recorded size is the natural size of that image, and
    0 by 0 while there is none; and the preview is marked processed
    only while a source is set. *)
Theorem reachable_states_are_consistent (events : list Event) :
  let h := run events initialHome in
  (280 <= previewWidth h <= 820)%Z
  /\ (imageSrc h = None <-> imageRef h = None)
  /\ (forall img, imageRef h = Some img ->
        imageSize h = {| width := naturalWidth img;
                         height := naturalHeight img |})
  /\ (imageRef h = None -> imageSize h = {| width := 0; height := 0 |})
  /\ (processed h = true -> imageSrc h <> None).
Proof.
  exact (consistent_run events initialHome consistent_initial).
Qed.

Lemma reachable_states_are_consistent_witness :
  (280 <= previewWidth
            (run [WindowResized (Some 100%Z); PreviewRendered] initialHome)
   <= 820)%Z.
Proof.
  exact (proj1 (reachable_states_are_consistent
                  [WindowResized (Some 100%Z); PreviewRendered])).
Defined.



Lemma previewScale_range (window : option number) :
  (forall dpr, window = Some dpr -> 0 <= dpr) ->
  0 < previewScale window /\ previewScale window <= 2.
Proof.
  intros Hdpr. destruct window as [dpr|]; cbn [previewScale];
    [|split; lra].
  specialize (Hdpr dpr eq_refl). unfold Math_min.
  destruct (Qeq_bool dpr 0) eqn:Hz.
  - destruct (Q.min_spec 2 1) as [[_ ->] | [_ ->]]; split; lra.
  - assert (Hnz : ~ dpr == 0) by now apply Qeq_bool_neq.
    assert (Hpos : 0 < dpr).
    { destruct (Qlt_le_dec 0 dpr) as [Hlt|Hle]; [exact Hlt|].
      exfalso. apply Hnz. lra. }
    destruct (Q.min_spec 2 dpr) as [[? ->] | [? ->]]; split; lra.
Qed.

(** X22 (lines 73, 157-161, 165-170, 186): the widths of the two
    surfaces are bounded.  In every reachable state, for a device pixel
    ratio that is not negative, the preview scale lies in (0, 2] and the
    preview surface is at most 1640 pixels wide; the export surface is
    exactly four times the preview width, between 1120 and 3280
    pixels. *)
Theorem surface_widths_are_bounded (events : list Event)
    (tempContext2d : bool) (window : option number) :
  (forall dpr, window = Some dpr -> 0 <= dpr) ->
  let h := run events initialHome in
  let c := component h tempContext2d in
  (0 < previewScale window /\ previewScale window <= 2)
  /\ (0 <= Renderer.baseWidth c (previewScale window)
      /\ Renderer.baseWidth c (previewScale window) <= 1640)
  /\ Renderer.baseWidth c 4 = inject_Z (4 * previewWidth h)
  /\ (1120 <= Renderer.baseWidth c 4 /\ Renderer.baseWidth c 4 <= 3280).
Proof.
  intros Hdpr. cbv zeta.
  destruct (consistent_run events initialHome consistent_initial)
    as (Hpw & _).
  set (h := run events initialHome) in *.
  destruct (previewScale_range window Hdpr) as [Hlo Hhi].
  assert (Hq : 280 <= inject_Z (previewWidth h)
               /\ inject_Z (previewWidth h) <= 820).
  { change 280 with (inject_Z 280). change 820 with (inject_Z 820).
    rewrite <- !Zle_Qle. exact Hpw. }
  assert (Hfour : Renderer.baseWidth (component h tempContext2d) 4
                  = inject_Z (4 * previewWidth h)).
  { change 4 with (inject_Z 4).
    rewrite baseWidth_integer_scale. cbn [Renderer.previewWidth component].
    f_equal. lia. }
  split; [split; assumption|]. split; [|split; [exact Hfour|]].
  - unfold Renderer.baseWidth, Math_floor.
    cbn [Renderer.previewWidth component].
    set (s := previewScale window) in *.
    assert (Hprod : 0 <= inject_Z (previewWidth h) * s
                    /\ inject_Z (previewWidth h) * s <= 1640) by nra.
    split.
    + change 0 with (inject_Z 0). rewrite <- Zle_Qle.
      apply Qfloor_nonneg, Hprod.
    + eapply Qle_trans; [apply Qfloor_le | apply Hprod].
  - rewrite Hfour.
    change 1120 with (inject_Z 1120). change 3280 with (inject_Z 3280).
    rewrite <- !Zle_Qle. lia.
Qed.

Lemma surface_widths_are_bounded_witness :
  Renderer.baseWidth
    (component (run [WindowResized (Some 1300%Z)] initialHome) true) 4
  = inject_Z (4 * 820).
Proof.
  refine (proj1 (proj2 (proj2
            (surface_widths_are_bounded [WindowResized (Some 1300%Z)]
               true (Some (3 # 2)) _)))).
  intros dpr [= <-]. lra.
Defined.

(** X23 (lines 67-77, 184-192): what a download takes.  Whenever
    [handleDownload] returns normally and clicks the link, a source is
    set and the PNG is taken from the export canvas as the render left
    it: either untouched, because the render returned at its guard, or
    resized to four times the preview width.  In particular an image
    whose recorded width or height is 0 still downloads the export
    canvas, as it was. *)
Theorem download_takes_the_export_canvas (fuel : nat) (h : Home)
    (tempContext2d : bool) (hd : option Renderer.HTMLCanvasElement)
    (r : Download) (cv' : Renderer.HTMLCanvasElement) :
  handleDownload fuel h tempContext2d hd = Some (Normal r) ->
  downloaded r = Some cv' ->
  imageSrc h <> None
  /\ hdCanvas r = Some cv'
  /\ exists cv, hd = Some cv
     /\ ((cv' = cv
          /\ (imageRef h = None \/ width (imageSize h) = 0%Z
              \/ height (imageSize h) = 0%Z))
         \/ (Renderer.width cv' = inject_Z (4 * previewWidth h)
             /\ Renderer.painted cv = firstn (List.length (Renderer.painted cv))
                                        (Renderer.painted cv'))).
Proof.
  unfold handleDownload.
  destruct (imageSrc h) as [url|] eqn:Hsrc;
    [|intros [= <-]; cbn; discriminate].
  destruct (Renderer.renderToCanvas fuel (component h tempContext2d) hd 4 1)
    as [[hd'|hd']|] eqn:Hrender; try discriminate.
  intros [= <-]. cbn [downloaded hdCanvas]. intros ->.
  split; [discriminate|]. split; [reflexivity|].
  destruct hd as [cv|].
  2:{ cbn in Hrender. discriminate. }
  exists cv. split; [reflexivity|].
  assert (Hfour : Renderer.baseWidth (component h tempContext2d) 4
                  = inject_Z (4 * previewWidth h)).
  { change 4 with (inject_Z 4).
    rewrite baseWidth_integer_scale. cbn [Renderer.previewWidth component].
    f_equal. lia. }
  destruct (render_keeps_calls _ _ _ _ _ _ Hrender)
    as [[-> Hguard] | (Hwidth & _ & ops & Hops)].
  - left. split; [reflexivity|].
    cbn [Renderer.imageRef Renderer.imageWidth Renderer.imageHeight
         component] in Hguard.
    destruct Hguard as [Himg | [Hw | Hh]]; auto.
    left. now destruct (imageRef h).
  - right. split; [now rewrite Hwidth|].
    rewrite Hops.
    now rewrite firstn_app, Nat.sub_diag, firstn_all, firstn_O, app_nil_r.
Qed.

Lemma download_takes_the_export_canvas_witness :
  let h := run [ImageLoaded (Some {| type := "image/svg+xml"%string |})
                  {| element := Renderer.grayImage; naturalWidth := 0;
                     naturalHeight := 0 |} "blob:1"%string] initialHome in
  imageSrc h <> None
  /\ exists cv, Some Renderer.blankCanvas = Some cv
     /\ ((Renderer.blankCanvas = cv
          /\ (imageRef h = None \/ width (imageSize h) = 0%Z
              \/ height (imageSize h) = 0%Z))
         \/ (Renderer.width Renderer.blankCanvas
             = inject_Z (4 * previewWidth h)
             /\ Renderer.painted cv
                = firstn (List.length (Renderer.painted cv))
                    (Renderer.painted Renderer.blankCanvas))).
Proof.
  cbv zeta.
  destruct (download_takes_the_export_canvas 5
              (run [ImageLoaded (Some {| type := "image/svg+xml"%string |})
                      {| element := Renderer.grayImage; naturalWidth := 0;
                         naturalHeight := 0 |} "blob:1"%string] initialHome)
              true (Some Renderer.blankCanvas)
              {| hdCanvas := Some Renderer.blankCanvas;
                 downloaded := Some Renderer.blankCanvas |}
              Renderer.blankCanvas eq_refl eq_refl)
    as (Hsrc & _ & Hcv).
  split; [exact Hsrc | exact Hcv].
Defined.

(** The height of the surface of an image more than [previewWidth]
    times as wide as it is high. *)
Lemma wide_image_height (c : Renderer.Component) (scale : number) :
  (0 < Renderer.imageHeight c)%Z -> (0 <= Renderer.previewWidth c)%Z ->
  (Renderer.previewWidth c * Renderer.imageHeight c
   < Renderer.imageWidth c)%Z ->
  Renderer.baseHeight c scale == 0.
Proof.
  intros Hh Hpw Hwide.
  assert (Hw : (0 < Renderer.imageWidth c)%Z) by nia.
  unfold Renderer.baseHeight, Math_floor, Renderer.aspect.
  set (W := Renderer.imageWidth c) in *.
  set (H := Renderer.imageHeight c) in *.
  set (P := Renderer.previewWidth c) in *.
  assert (HW : 0 < inject_Z W)
    by (change 0 with (inject_Z 0); now rewrite <- Zlt_Qlt).
  assert (HH : 0 < inject_Z H)
    by (change 0 with (inject_Z 0); now rewrite <- Zlt_Qlt).
  assert (HP : 0 <= inject_Z P)
    by (change 0 with (inject_Z 0); now rewrite <- Zle_Qle).
  assert (Hlt : inject_Z P * inject_Z H < inject_Z W)
    by (rewrite <- inject_Z_mult; now rewrite <- Zlt_Qlt).
  assert (Hq : inject_Z P / (inject_Z W / inject_Z H)
               == inject_Z P * inject_Z H / inject_Z W)
    by (field; split; lra).
  assert (Hfloor : Qfloor (inject_Z P / (inject_Z W / inject_Z H)) = 0%Z).
  { apply Qfloor_unique; rewrite Hq.
    - change (inject_Z 0) with 0. apply Qle_shift_div_l; [exact HW|].
      nra.
    - change (inject_Z (0 + 1)) with 1. apply Qlt_shift_div_r; [exact HW|].
      lra. }
  rewrite Hfloor. change (inject_Z 0) with 0. ring.
Qed.

(** X24 (lines 74-89, 153-162, 184-192): an image too wide for the
    preview breaks both renders.  When the image held is more than
    [previewWidth] times as wide as it is high, the surface height is
    0; with both 2D contexts at hand the preview effect and the
    download then raise on a resized canvas on which nothing was
    painted: the preview is not marked processed and nothing is
    downloaded. *)
Theorem wide_image_breaks_both_renders (fuel : nat) (h : Home)
    (img : LoadedImage) (url : String.string)
    (cv hd : Renderer.HTMLCanvasElement) (window : option number) :
  imageRef h = Some img -> imageSrc h = Some url ->
  (0 < height (imageSize h))%Z -> (0 <= previewWidth h)%Z ->
  (previewWidth h * height (imageSize h) < width (imageSize h))%Z ->
  Renderer.context2d cv = true -> Renderer.context2d hd = true ->
  let c := component h true in
  previewEffect fuel h true (Some cv) window
  = Some (Thrown (h, Some (Renderer.resized cv
                             (Renderer.baseWidth c (previewScale window))
                             (Renderer.baseHeight c (previewScale window)))))
  /\ Renderer.baseHeight c (previewScale window) == 0
  /\ handleDownload fuel h true (Some hd)
     = Some (Thrown {| hdCanvas :=
                         Some (Renderer.resized hd (Renderer.baseWidth c 4)
                                 (Renderer.baseHeight c 4));
                       downloaded := None |})
  /\ Renderer.baseHeight c 4 == 0.
Proof.
  intros Himg Hsrc Hh Hpw Hwide Hcv Hhd. cbv zeta.
  assert (Hzero : forall scale,
             Renderer.baseHeight (component h true) scale == 0)
    by (intros scale; now apply wide_image_height).
  assert (Hrender : forall canvas scale detailBoost,
             Renderer.context2d canvas = true ->
             Renderer.renderToCanvas fuel (component h true) (Some canvas)
               scale detailBoost
             = Some (Renderer.Raised
                 (Some (Renderer.resized canvas
                          (Renderer.baseWidth (component h true) scale)
                          (Renderer.baseHeight (component h true) scale))))).
  { intros canvas scale detailBoost Hctx. unfold Renderer.renderToCanvas.
    cbn [Renderer.imageRef Renderer.imageWidth Renderer.imageHeight
         Renderer.tempContext2d component].
    rewrite Himg. cbn [option_map]. unfold falsy.
    destruct (Z.eqb_spec (width (imageSize h)) 0) as [Hw0|_]; [nia|].
    destruct (Z.eqb_spec (height (imageSize h)) 0) as [Hh0|_]; [lia|].
    cbn [orb]. rewrite Hctx. cbn [negb].
    assert (Hb : Qeq_bool (Renderer.baseHeight (component h true) scale) 0
                 = true) by (apply Qeq_bool_iff, Hzero).
    rewrite Hb, orb_true_r. reflexivity. }
  repeat split.
  - unfold previewEffect. rewrite Hsrc.
    now rewrite (Hrender cv (previewScale window) 0.7 Hcv).
  - apply Hzero.
  - unfold handleDownload. rewrite Hsrc.
    now rewrite (Hrender hd 4 1 Hhd).
  - apply Hzero.
Qed.

Lemma wide_image_breaks_both_renders_witness :
  let h := run [ImageLoaded (Some {| type := "image/png"%string |})
                  {| element := Renderer.grayImage; naturalWidth := 2000;
                     naturalHeight := 2 |} "blob:1"%string] initialHome in
  handleDownload 0 h true (Some Renderer.blankCanvas)
  = Some (Thrown {| hdCanvas :=
                      Some (Renderer.resized Renderer.blankCanvas
                              (Renderer.baseWidth (component h true) 4)
                              (Renderer.baseHeight (component h true) 4));
                    downloaded := None |}).
Proof.
  cbv zeta.
  refine (proj1 (proj2 (proj2
            (wide_image_breaks_both_renders 0
               (run [ImageLoaded (Some {| type := "image/png"%string |})
                       {| element := Renderer.grayImage;
                          naturalWidth := 2000; naturalHeight := 2 |}
                       "blob:1"%string] initialHome)
               {| element := Renderer.grayImage; naturalWidth := 2000;
                  naturalHeight := 2 |} "blob:1"%string
               Renderer.blankCanvas Renderer.blankCanvas None
               eq_refl eq_refl _ _ _ eq_refl eq_refl))));
    cbn; lia.
Defined.

End PageFacts.
